(** * Forensic scoring engine of [main.py]

    A shallow embedding of the four forensic feature calculators
    ([frequency_score], [noise_score], [compression_score],
    [color_corr_score]), of [forensic_analyze] and of [extract_metadata],
    with the properties the specification states about them and further
    properties read off the code.

    Numbers.  8-bit pixel data is modelled in [Z] and is executable.  The
    float32 arithmetic that decides which residuals [np.histogram] keeps
    (lines 77-79 of [noise_score] and the comparison with the range) is
    modelled exactly, on rationals rounded to binary32 ([Float32]), and is
    executable too.  The other floating-point quantities of the program
    are modelled as real numbers [R]: rounding is idealised, every decimal
    literal denotes the rational it spells.  Where the program guards a
    denominator the guard is shown to keep it positive
    ([frequency_denominators], [corrcoef_denominators]); the one division
    that can be [0/0], inside [np.histogram], yields a NaN, which
    [np_float] keeps explicit.

    Libraries.  [numpy] and [cv2] are not part of the repository.  Their
    operations are modelled from their documented meaning; the two whose
    exact output is implementation-defined (area resampling and the JPEG
    codec) are an interface, [OpenCV], with the laws the program relies on.
    The codec can fail: JPEG holds no image with a side of more than 65500
    pixels.  What [extract_metadata] uses of PIL is an interface too,
    [Pillow]. *)

From Stdlib Require Import Reals Lra Lia ZArith List QArith Qreals.
From Stdlib Require PrimFloat.
From stdpp Require Import gmap strings list.

(** ** numpy: scalars, reductions, clipping *)

Module Np.
Local Open Scope R_scope.

(** A float as the program can hold it: a finite value or NaN.  An IEEE
    infinity would need a nonzero value over zero; the one denominator of
    the program that can be zero is the total count of the histogram, and
    then every count it divides is zero as well ([histogram_zero_total]). *)
Inductive np_float : Type :=
| Finite (x : R)
| NaN.

Definition lift1 (f : R -> R) (a : np_float) : np_float :=
  match a with
  | Finite x => Finite (f x)
  | NaN => NaN
  end.

Definition lift2 (f : R -> R -> R) (a b : np_float) : np_float :=
  match a, b with
  | Finite x, Finite y => Finite (f x y)
  | _, _ => NaN
  end.

Definition np_add : np_float -> np_float -> np_float := lift2 Rplus.
Definition np_mul : np_float -> np_float -> np_float := lift2 Rmult.
Definition np_neg : np_float -> np_float := lift1 Ropp.

(** [a / b] on floats: [0/0] is NaN (numpy warns and goes on). *)
Definition true_divide (a b : np_float) : np_float :=
  match a, b with
  | Finite x, Finite y => if Req_dec_T y 0 then NaN else Finite (x / y)
  | _, _ => NaN
  end.

(** [np.clip(x, lo, hi)] is [minimum(maximum(x, lo), hi)]. *)
Definition Rclip (x lo hi : R) : R := Rmin (Rmax x lo) hi.

(** On a NaN, [np.clip] returns the NaN. *)
Definition np_clip (a : np_float) (lo hi : R) : np_float :=
  lift1 (fun x => Rclip x lo hi) a.

(** [a.sum()] *)
Definition Rsum (l : list R) : R := fold_right Rplus 0 l.

Definition np_sum (l : list np_float) : np_float :=
  fold_right np_add (Finite 0) l.

(** [np.mean(a)], [np.var(a)], [np.std(a)] (population statistics, ddof 0) *)
Definition mean (l : list R) : R := Rsum l / INR (length l).

Definition var (l : list R) : R :=
  mean (map (fun x => (x - mean l) * (x - mean l)) l).

Definition std (l : list R) : R := sqrt (var l).

(** [a.ravel()] of a two-dimensional array: row after row. *)
Definition ravel {A : Type} (a : list (list A)) : list A := concat a.

(** [a.shape] of a two-dimensional array: rows, then columns. *)
Definition shape {A : Type} (a : list (list A)) : nat * nat :=
  (length a, length (hd [] a)).

(** Comparisons of floats, as booleans. *)
Definition Rleb (x y : R) : bool := if Rle_dec x y then true else false.
Definition Rltb (x y : R) : bool := if Rlt_dec x y then true else false.

(** [range(start, stop, step)] for a positive step. *)
Definition range (start stop step : Z) : list Z :=
  map (fun k => (start + Z.of_nat k * step)%Z)
      (seq 0 (Z.to_nat ((stop - start + step - 1) / step))).

End Np.

Export Np.

(** ** cv2: images and the filters the analyzers call *)

Module Cv.
Local Open Scope Z_scope.

(** A decoded image is an [H x W x 3] array of 8-bit values in B, G, R
    order ([cv2.imread] with its default flag). *)
Definition pixel : Type := Z * Z * Z.
Definition image : Type := list (list pixel).

Definition is_u8 (v : Z) : bool := (0 <=? v) && (v <=? 255).

Definition pixel_ok (p : pixel) : bool :=
  let '(b, g, r) := p in is_u8 b && is_u8 g && is_u8 r.

(** What [cv2.imread] can return: at least one row and one column, all rows
    of one length, every channel value a byte. *)
Definition valid_image (img : image) : bool :=
  (0 <? length img)%nat && (0 <? length (hd [] img))%nat &&
  forallb (fun row => (length row =? length (hd [] img))%nat) img &&
  forallb (forallb pixel_ok) img.

(** [cv2.cvtColor(image, cv2.COLOR_BGR2RGB)] swaps the outer channels. *)
Definition cvtColor_BGR2RGB (img : image) : image :=
  map (map (fun p : pixel => let '(b, g, r) := p in (r, g, b))) img.

(** [cv2.cvtColor(image, cv2.COLOR_BGR2GRAY)] on 8-bit data:
    [Y = 0.299 R + 0.587 G + 0.114 B] in 15-bit fixed point, rounded. *)
Definition gray_of_pixel (p : pixel) : Z :=
  let '(b, g, r) := p in
  Z.shiftr (3735 * b + 19235 * g + 9798 * r + Z.shiftl 1 14) 15.

Definition cvtColor_BGR2GRAY (img : image) : list (list Z) :=
  map (map gray_of_pixel) img.

(** Element [(y, x)] of a two-dimensional array. *)
Definition at2 {A : Type} (d : A) (a : list (list A)) (y x : nat) : A :=
  nth x (nth y a []) d.

(** An array given by its entries. *)
Definition tabulate2 {A : Type} (h w : nat) (f : nat -> nat -> A)
  : list (list A) :=
  map (fun y => map (fun x => f y x) (seq 0 w)) (seq 0 h).

(** Border handling: [BORDER_REPLICATE] repeats the edge sample,
    [BORDER_REFLECT_101] mirrors about it. *)
Definition border_replicate (n : nat) (i : Z) : nat :=
  Z.to_nat (Z.max 0 (Z.min i (Z.of_nat n - 1))).

Definition border_reflect_101 (n : nat) (i : Z) : nat :=
  if (n =? 1)%nat then 0%nat
  else if i <? 0 then Z.to_nat (- i)
  else if Z.of_nat n <=? i then Z.to_nat (2 * (Z.of_nat n - 1) - i)
  else Z.to_nat i.

Fixpoint insert_sorted (v : Z) (l : list Z) : list Z :=
  match l with
  | [] => [v]
  | u :: l' => if v <=? u then v :: l else u :: insert_sorted v l'
  end.

Definition sort (l : list Z) : list Z := fold_right insert_sorted [] l.

(** The 3x3 neighbourhood of [(y, x)], rows then columns. *)
Definition window3 (border : nat -> Z -> nat) (g : list (list Z))
    (y x : nat) : list Z :=
  let '(h, w) := shape g in
  flat_map (fun dy =>
     map (fun dx =>
        at2 0 g (border h (Z.of_nat y + dy)) (border w (Z.of_nat x + dx)))
       [-1; 0; 1])
    [-1; 0; 1].

(** [cv2.medianBlur(src, 3)]: the median of the 3x3 neighbourhood, borders
    replicated. *)
Definition medianBlur3 (g : list (list Z)) : list (list Z) :=
  let '(h, w) := shape g in
  tabulate2 h w (fun y x => nth 4 (sort (window3 border_replicate g y x)) 0).

(** [cv2.Laplacian(src, cv2.CV_64F)] with the default aperture 1: the
    kernel [[0 1 0] [1 -4 1] [0 1 0]], borders mirrored. *)
Definition Laplacian (g : list (list Z)) : list (list Z) :=
  let '(h, w) := shape g in
  tabulate2 h w (fun y x =>
    match window3 border_reflect_101 g y x with
    | [_; north; _; west; centre; east; _; south; _] =>
        north + west + east + south - 4 * centre
    | _ => 0
    end).

(** The largest width and height of a JPEG image ([JPEG_MAX_DIMENSION] of
    libjpeg). *)
Definition JPEG_MAX_DIMENSION : Z := 65500.

Definition jpeg_fits (img : image) : bool :=
  (Z.of_nat (length img) <=? JPEG_MAX_DIMENSION)
  && (Z.of_nat (length (hd [] img)) <=? JPEG_MAX_DIMENSION).

(** The two operations whose output depends on the library build.

    [resize_area g w h] is [cv2.resize(g, (w, h), interpolation=INTER_AREA)]
    on an 8-bit single-channel array.  [imencode_jpg q img] is the buffer
    of [cv2.imencode('.jpg', img, [IMWRITE_JPEG_QUALITY, q])], or [None]
    when the encoder fails: the flag it returns is [False] and there is no
    buffer.  It fails exactly on the images JPEG cannot hold
    ([jpeg_fits]).  [imdecode] is [cv2.imdecode(enc, cv2.IMREAD_COLOR)] on
    a buffer the encoder wrote. *)
Class OpenCV : Type := {
  resize_area : list (list Z) -> nat -> nat -> list (list Z);
  resize_area_rows : forall g w h, length (resize_area g w h) = h;
  resize_area_cols : forall g w h,
    Forall (fun row => length row = w) (resize_area g w h);
  encoded : Type;
  imencode_jpg : Z -> image -> option encoded;
  imdecode : encoded -> image;
  imencode_jpg_fits : forall q img,
    valid_image img = true ->
    (is_Some (imencode_jpg q img) <-> jpeg_fits img = true);
  jpeg_same_shape : forall q img enc,
    imencode_jpg q img = Some enc ->
    map length (imdecode enc) = map length img;
}.

End Cv.

Export Cv.

(** ** The Python runtime: objects, exceptions, the call log

    A computation takes a state and returns an outcome and a state.  The
    state holds what [cv2.imread] would decode, the objects alive, and a
    ghost log of the analyzers entered, which the program does not keep but
    the claims about the order of events need. *)

Module Py.

Definition loc : Type := nat.

(** The objects that cross a function boundary or are updated in place:
    the decoded image, the float arrays the analyzers hand back, and the
    Python list [compression_score] appends to.  Temporaries that are built,
    read and dropped inside one analyzer are values. *)
Inductive obj : Type :=
| OImage (a : image)
| OArray (a : list (list R))
| OList (l : list R).

(** [TypeError] stands for the use of an object at the wrong type, as when
    a location that holds no image is passed to an analyzer; [cv2_error] is
    [cv2.error], which OpenCV raises when one of its assertions fails. *)
Inductive exn : Type :=
| ValueError (msg : string)
| TypeError
| cv2_error (msg : string).

Inductive outcome (A : Type) : Type :=
| Ok (a : A)
| Raise (e : exn).
Arguments Ok {A} a.
Arguments Raise {A} e.

(** [files] is what [cv2.imread] makes of each path ([None]: it returns
    [None]); [heap] holds the objects, a location is an index; [calls] is a
    ghost log of the analyzers entered so far. *)
Record world : Type := World {
  files : string -> option image;
  heap : list obj;
  calls : list string;
}.

Definition M (A : Type) : Type := world -> outcome A * world.

Definition run {A : Type} (m : M A) (w : world) : outcome A * world := m w.

#[export] Instance M_ret : MRet M := fun A a w => (Ok a, w).

#[export] Instance M_bind : MBind M := fun A B f m w =>
  match m w with
  | (Ok a, w') => f a w'
  | (Raise e, w') => (Raise e, w')
  end.

Definition raise {A : Type} (e : exn) : M A := fun w => (Raise e, w).

Definition enter (name : string) : M unit := fun w =>
  (Ok tt, World (files w) (heap w) (calls w ++ [name])).

(** A new object; its location is fresh. *)
Definition alloc (o : obj) : M loc := fun w =>
  (Ok (length (heap w)), World (files w) (heap w ++ [o]) (calls w)).

Definition load_image (l : loc) : M image := fun w =>
  match heap w !! l with
  | Some (OImage a) => (Ok a, w)
  | _ => (Raise TypeError, w)
  end.

Definition load_list (l : loc) : M (list R) := fun w =>
  match heap w !! l with
  | Some (OList xs) => (Ok xs, w)
  | _ => (Raise TypeError, w)
  end.

(** [lst.append(v)] updates the list object in place. *)
Definition append (l : loc) (v : R) : M unit := fun w =>
  match heap w !! l with
  | Some (OList xs) =>
      (Ok tt, World (files w) (<[l := OList (xs ++ [v])]> (heap w)) (calls w))
  | _ => (Raise TypeError, w)
  end.

(** [cv2.imread(path)]: a new image object, or [None]. *)
Definition imread (path : string) : M (option loc) := fun w =>
  match files w path with
  | Some img => (alloc (OImage img) ≫= fun l => mret (Some l)) w
  | None => (Ok None, w)
  end.

(** [for x in xs: body(x)] *)
Fixpoint for_ {A : Type} (xs : list A) (body : A -> M unit) : M unit :=
  match xs with
  | [] => mret tt
  | x :: xs' => body x ≫= fun _ => for_ xs' body
  end.

End Py.

Export Py.

(** ** binary32

    A finite [float32] value is a rational; an operation on [float32]
    values is the exact operation followed by rounding.  Everything here
    computes. *)

Module Float32.
Local Open Scope Z_scope.

(** The integer nearest to [p / q], for [q > 0]; a tie goes to the even
    one. *)
Definition round_half_even (p q : Z) : Z :=
  let fl := p / q in
  match 2 * (p mod q) ?= q with
  | Lt => fl
  | Gt => fl + 1
  | Eq => if Z.even fl then fl else fl + 1
  end.

(** [2^k <= n / d], for [n, d > 0]. *)
Definition pow2_le (k n d : Z) : bool :=
  if 0 <=? k then d * 2 ^ k <=? n else d <=? n * 2 ^ (- k).

(** The binary exponent of [n / d]: the [k] with
    [2^k <= n / d < 2^(k+1)]. *)
Definition exponent (n d : Z) : Z :=
  let k := Z.log2 n - Z.log2 d in
  if pow2_le k n d then k else k - 1.

(** Rounding to binary32, to nearest, ties to even: 24 significant bits,
    the smallest step [2^-149].  For magnitudes below [2^128]; no value of
    the program is above 255. *)
Definition round (x : Q) : Q :=
  let n := Qnum x in
  let d := Z.pos (Qden x) in
  if n =? 0 then 0%Q
  else
    let q := Z.max (exponent (Z.abs n) d - 23) (-149) in
    if q <=? 0
    then Qmake (round_half_even (n * 2 ^ (- q)) d) (Z.to_pos (2 ^ (- q)))
    else inject_Z (round_half_even n (d * 2 ^ q) * 2 ^ q).

Definition div (x y : Q) : Q := round (x / y).
Definition mul (x y : Q) : Q := round (x * y).
Definition sub (x y : Q) : Q := round (x - y).

(** [x.astype(np.uint8)]: the fraction is dropped, the integer wraps. *)
Definition to_uint8 (x : Q) : Z := (Qnum x ÷ Z.pos (Qden x)) mod 256.

(** [x.astype(np.float32)] of an 8-bit value is exact. *)
Definition of_uint8 (v : Z) : Q := inject_Z v.

End Float32.

(** ** numpy: arrays, histogram, Fourier transform *)

Module NpArray.
Local Open Scope R_scope.

(** Elementwise operations on two-dimensional arrays. *)
Definition map2d {A B : Type} (f : A -> B) (a : list (list A))
  : list (list B) := map (map f) a.

Definition zip2d {A B C : Type} (f : A -> B -> C)
    (a : list (list A)) (b : list (list B)) : list (list C) :=
  zip_with (zip_with f) a b.

(** [a.max()]; numpy raises [ValueError] on an empty array. *)
Definition amax (l : list R) : M R :=
  match l with
  | [] => raise (ValueError "zero-size array to reduction operation maximum")
  | x :: l' => mret (fold_left Rmax l' x)
  end.

(** [a[mask].sum()]: the entries of [a] the boolean mask selects. *)
Definition masked_sum (a : list (list R)) (mask : list (list bool)) : R :=
  Rsum (map fst (List.filter snd (zip (ravel a) (ravel mask)))).

(** [a[y0:y1, x0:x1]] for bounds inside the array. *)
Definition slice2 {A : Type} (a : list (list A)) (y0 y1 x0 x1 : nat)
  : list (list A) :=
  map (fun row => take (x1 - x0) (drop x0 row)) (take (y1 - y0) (drop y0 a)).

(** *** [np.histogram(a, bins, range=(lo, hi), density=True)] *)

(** [np.linspace(lo, hi, bins + 1)] *)
Definition bin_edges (bins : nat) (lo hi : R) : list R :=
  map (fun i => lo + INR i * ((hi - lo) / INR bins)) (seq 0 (S bins)).

Definition edge (bins : nat) (lo hi : R) (i : nat) : R :=
  nth i (bin_edges bins lo hi) 0.

(** numpy keeps the samples with [first <= x <= last], where [first] and
    [last] are the two ends of the range in the type of the samples: for
    [float32] samples the comparison is made in [float32].  A sample that
    is kept falls into the bin between whose edges it lies; every bin is
    half-open but the last, and the first and the last bin take what is
    kept beyond the outer edges.  A sample that is not kept is in no
    bin. *)
Definition in_bin (bins : nat) (lo hi first last : R) (i : nat) (x : R)
  : bool :=
  Rleb first x && Rleb x last
  && ((i =? 0)%nat || Rleb (edge bins lo hi i) x)
  && ((S i =? bins)%nat || Rltb x (edge bins lo hi (S i))).

Definition histogram_counts (a : list R) (bins : nat) (lo hi first last : R)
  : list nat :=
  map (fun i => length (List.filter (in_bin bins lo hi first last i) a))
      (seq 0 bins).

(** [np.diff] *)
Definition diff (l : list R) : list R :=
  zip_with (fun a b => b - a) l (tail l).

(** With [density=True] numpy returns [n / db / n.sum()]. *)
Definition histogram_density (a : list R) (bins : nat)
    (lo hi first last : R) : list np_float :=
  let n := histogram_counts a bins lo hi first last in
  let db := diff (bin_edges bins lo hi) in
  let total := fold_right Nat.add 0%nat n in
  zip_with (fun ni dbi =>
     true_divide (true_divide (Finite (INR ni)) (Finite dbi))
                 (Finite (INR total)))
    n db.

(** *** [np.fft.fft2], [np.fft.fftshift], [np.abs], [np.log1p] *)

(** The two-dimensional discrete Fourier transform, real and imaginary
    part. *)
Definition fft2 (g : list (list R)) : list (list (R * R)) :=
  let '(h, w) := shape g in
  tabulate2 h w (fun u v =>
    let term (f : R -> R) :=
      Rsum (flat_map (fun y =>
              map (fun x =>
                 at2 0 g y x *
                 f (2 * PI * (INR u * INR y / INR h + INR v * INR x / INR w)))
                (seq 0 w))
             (seq 0 h)) in
    (term cos, - term sin)).

(** Entry [k] of the shifted axis is entry [k - n // 2] (mod [n]). *)
Definition fftshift {A : Type} (d : A) (a : list (list A)) : list (list A) :=
  let '(h, w) := shape a in
  tabulate2 h w (fun i j =>
    at2 d a ((i + (h - h / 2)) mod h)%nat ((j + (w - w / 2)) mod w)%nat).

Definition Cabs (z : R * R) : R := sqrt (fst z * fst z + snd z * snd z).

Definition log1p (x : R) : R := ln (1 + x).

(** [np.corrcoef(a, b)[0, 1]]: the sample covariance over the two sample
    standard deviations, clipped to [[-1, 1]]. *)
Definition cov (a b : list R) : R :=
  Rsum (zip_with (fun x y => (x - mean a) * (y - mean b)) a b)
  / (INR (length a) - 1).

Definition corrcoef01 (a b : list R) : R :=
  Rclip (cov a b / sqrt (cov a a) / sqrt (cov b b)) (-1) 1.

End NpArray.

Export NpArray.

(** ** The forensic feature calculators *)

Section Analyzers.
Context {cv : OpenCV}.
Local Open Scope R_scope.

(** Lines 50-53 of [frequency_score]: the shifted log-magnitude spectrum. *)
Definition log_spectrum (gray : list (list Z)) : list (list R) :=
  let f := fft2 (map2d IZR gray) in
  let fshift := fftshift (0, 0) f in
  let magnitude := map2d Cabs fshift in
  map2d log1p magnitude.

(** Lines 56-58: the distance of every cell from the centre. *)
Definition radius (h w : nat) : list (list R) :=
  let cy := Z.of_nat (h / 2) in
  let cx := Z.of_nat (w / 2) in
  tabulate2 h w (fun y x =>
    sqrt (IZR ((Z.of_nat x - cx) ^ 2 + (Z.of_nat y - cy) ^ 2))).

Definition low_mask (r : list (list R)) (max_r : R) : list (list bool) :=
  map2d (fun v => Rleb v (0.25 * max_r)) r.

Definition mid_mask (r : list (list R)) (max_r : R) : list (list bool) :=
  map2d (fun v => Rltb (0.25 * max_r) v && Rleb v (0.6 * max_r)) r.

Definition high_mask (r : list (list R)) (max_r : R) : list (list bool) :=
  map2d (fun v => Rltb (0.6 * max_r) v) r.

Definition frequency_score (image : loc) : M (np_float * loc) :=
  enter "frequency_score";;
  img ← load_image image;
  let gray := cvtColor_BGR2GRAY img in
  let gray := resize_area gray 256 256 in
  let mag_log := log_spectrum gray in
  let '(h, w) := shape gray in
  let r := radius h w in
  max_r ← amax (ravel r);
  let total := Rsum (ravel mag_log) + 1e-8 in
  let high_energy := masked_sum mag_log (high_mask r max_r) / total in
  let mid_energy := masked_sum mag_log (mid_mask r max_r) / total in
  let low_energy := masked_sum mag_log (low_mask r max_r) / total in
  let frac_high := high_energy in
  let balance := (mid_energy + high_energy) / (low_energy + 1e-8) in
  let raw := frac_high * 0.7 + (balance / (balance + 1)) * 0.3 in
  let score := Rclip raw 0 1 in
  out ← alloc (OArray mag_log);
  mret (Finite score, out).

(** [a.astype(np.float32) / 255.0] of an 8-bit array, in [float32]. *)
Definition scaled32 (a : list (list Z)) : list (list Q) :=
  map2d (fun v => Float32.div (Float32.of_uint8 v) 255) a.

(** [(gray * 255).astype(np.uint8)], the product in [float32]. *)
Definition to_uint8 (gray : list (list Q)) : list (list Z) :=
  map2d (fun v => Float32.to_uint8 (Float32.mul v 255)) gray.

(** Lines 77-79 of [noise_score] in [float32]: the image minus its
    median-filtered version, both scaled to [[0, 1]]. *)
Definition residual32 (img : image) : list (list Q) :=
  let gray := scaled32 (cvtColor_BGR2GRAY img) in
  let med := scaled32 (medianBlur3 (to_uint8 gray)) in
  zip2d Float32.sub gray med.

(** The residual as real numbers: the values of the [float32] array. *)
Definition noise_residual (img : image) : list (list R) :=
  map2d Q2R (residual32 img).

(** Lines 80-81: the magnitude of the Laplacian. *)
Definition laplacian_magnitude (img : image) : list (list R) :=
  let gray := scaled32 (cvtColor_BGR2GRAY img) in
  let lap := map2d IZR (Laplacian (to_uint8 gray)) in
  map2d Rabs lap.

(** The ends [-0.2] and [0.2] of the range of line 86 as [np.histogram]
    compares them with the [float32] residuals. *)
Definition range_first32 : Q := Float32.round (- (1 # 5)).
Definition range_last32 : Q := Float32.round (1 # 5).

(** [keep = (a >= first_edge) & (a <= last_edge)] on a [float32]
    sample. *)
Definition kept32 (x : Q) : bool :=
  Qle_bool range_first32 x && Qle_bool x range_last32.

(** Lines 86-87: the histogram of the residual, floored. *)
Definition residual_hist (residual : list (list R)) : list np_float :=
  let hist :=
    histogram_density (ravel residual) 64 (-0.2) 0.2
                      (Q2R range_first32) (Q2R range_last32) in
  map (fun p => np_add p (Finite 1e-12)) hist.

(** Line 88. *)
Definition hist_entropy (hist : list np_float) : np_float :=
  np_neg (np_sum (map (fun p => np_mul p (lift1 ln p)) hist)).

Definition noise_score (image : loc) : M (np_float * loc) :=
  enter "noise_score";;
  img ← load_image image;
  let residual := noise_residual img in
  let lap := laplacian_magnitude img in
  let resid_std := std (ravel residual) in
  let lap_std := std (ravel lap) / 255 in
  let hist := residual_hist residual in
  let entropy := hist_entropy hist in
  let resid_norm := tanh (resid_std * 10) in
  let lap_norm := tanh (lap_std * 5) in
  let ent_norm := lift1 tanh (true_divide entropy (Finite 3)) in
  let raw :=
    np_add (np_add (Finite (0.45 * resid_norm)) (Finite (0.35 * lap_norm)))
           (np_mul (Finite 0.20) ent_norm) in
  let score := np_clip raw 0 1 in
  out ← alloc (OArray residual);
  mret (score, out).

(** Line 100, [cv2.imdecode(enc, cv2.IMREAD_COLOR)] on what line 99 kept
    of [cv2.imencode]: the flag is dropped, and decoding the buffer of a
    failed encoding raises [cv2.error]. *)
Definition decode (enc : option encoded) : M image :=
  match enc with
  | Some enc => mret (imdecode enc)
  | None => raise (cv2_error "imdecode_: !buf.empty()")
  end.

(** Lines 101-103 of [compression_score]: the re-compression error map of
    the image and its decoded copy. *)
Definition recompression_error (img dec : image) : list (list R) :=
  let orig := map2d IZR (cvtColor_BGR2GRAY img) in
  let dec_gray := map2d IZR (cvtColor_BGR2GRAY dec) in
  zip2d (fun o d => Rabs (o - d) / 255) orig dec_gray.

Definition compression_score (image : loc) : M (np_float * loc) :=
  enter "compression_score";;
  img ← load_image image;
  let enc := imencode_jpg 85 img in
  dec ← decode enc;
  let error := recompression_error img dec in
  out ← alloc (OArray error);
  let '(h, w) := shape error in
  let '(bh, bw) := (8, 8)%Z in
  variances ← alloc (OList []);
  for_ (range 0 (Z.of_nat h - bh + 1) bh) (fun y =>
    for_ (range 0 (Z.of_nat w - bw + 1) bw) (fun x =>
      let block := slice2 error (Z.to_nat y) (Z.to_nat (y + bh))
                          (Z.to_nat x) (Z.to_nat (x + bw)) in
      append variances (var (ravel block))));;
  variances ← load_list variances;
  if (length variances =? 0)%nat then mret (Finite 0.5, out)
  else
    let spread := std variances in
    let raw := tanh (spread * 50) in
    let score := Rclip raw 0 1 in
    mret (Finite score, out).

(** The inner function of [color_corr_score]. *)
Definition safe_corr (a b : list Z) : R :=
  if Rltb (std (map IZR a)) 1e-6 || Rltb (std (map IZR b)) 1e-6 then 0
  else corrcoef01 (map IZR a) (map IZR b).

(** [rgb[:, :, k].ravel()] *)
Definition channel (k : pixel -> Z) (rgb : image) : list Z :=
  ravel (map2d k rgb).

Definition color_corr_score (image : loc) : M np_float :=
  enter "color_corr_score";;
  img ← load_image image;
  let rgb := cvtColor_BGR2RGB img in
  let r := channel (fun p => p.1.1) rgb in
  let g := channel (fun p => p.1.2) rgb in
  let b := channel (fun p => p.2) rgb in
  let rg := safe_corr r g in
  let rb := safe_corr r b in
  let gb := safe_corr g b in
  let avg := mean [rg; rb; gb] in
  let score := Rclip ((avg + 1) / 2) 0 1 in
  mret (Finite score).

(** ** The combined analyzer *)

(** Lines 146-156 of [forensic_analyze]: the weighted sum and the report. *)
Definition w_freq : R := 0.35.
Definition w_noise : R := 0.3.
Definition w_comp : R := 0.2.
Definition w_color : R := 0.15.

Definition forensic_report (freq_s noise_s comp_s color_s : np_float)
  : gmap string np_float :=
  let forensic_score :=
    np_add
      (np_add
         (np_add (np_mul (Finite w_freq) freq_s)
                 (np_mul (Finite w_noise) noise_s))
         (np_mul (Finite w_comp) comp_s))
      (np_mul (Finite w_color) color_s) in
  let forensic_score := np_clip forensic_score 0 1 in
  {[ "forensic_score" := forensic_score;
     "frequency" := freq_s;
     "noise" := noise_s;
     "compression" := comp_s;
     "color_corr" := color_s ]}.

Definition forensic_analyze (image_path : string)
  : M (gmap string np_float) :=
  image ← imread image_path;
  match image with
  | None => raise (ValueError "Cannot read image for forensic analysis.")
  | Some image =>
      '(freq_s, _) ← frequency_score image;
      '(noise_s, _) ← noise_score image;
      '(comp_s, _) ← compression_score image;
      color_s ← color_corr_score image;
      mret (forensic_report freq_s noise_s comp_s color_s)
  end.

End Analyzers.


(** * Specification and models *)

(** ** The formulas of the specification *)

Module Spec.
Local Open Scope R_scope.

(** [clip(x, lo, hi)] as the specification uses it: [x] confined to
    [[lo, hi]]. *)
Definition clamp (x lo hi : R) : R :=
  if Rlt_dec x lo then lo else if Rlt_dec hi x then hi else x.

(** Section 4.5: the aggregate of four sub-scores. *)
Definition forensic_score (frequency noise compression color_corr : R) : R :=
  clamp (0.35 * frequency + 0.30 * noise + 0.20 * compression
         + 0.15 * color_corr) 0 1.

End Spec.

Module SpecFrequency.
Local Open Scope R_scope.

(** Section 4.1, step 3: the three radial bands, by radius normalised with
    the largest radius of the grid. *)
Definition in_low (r_max r : R) : Prop := r <= 0.25 * r_max.
Definition in_mid (r_max r : R) : Prop := 0.25 * r_max < r /\ r <= 0.6 * r_max.
Definition in_high (r_max r : R) : Prop := r > 0.6 * r_max.

#[export] Instance in_low_dec (r_max r : R) : Decision (in_low r_max r) :=
  Rle_dec _ _.
#[export] Instance in_mid_dec (r_max r : R) : Decision (in_mid r_max r) :=
  and_dec (Rlt_dec _ _) (Rle_dec _ _).
#[export] Instance in_high_dec (r_max r : R) : Decision (in_high r_max r) :=
  Rgt_dec _ _.

(** Step 2: the transform [F] shifted so that the zero frequency sits at
    the centre [(128, 128)] of the 256x256 grid, its magnitude under
    [log(1 + x)]. *)
Definition centred (F : list (list (R * R))) (y x : nat) : R * R :=
  at2 (0, 0) F (Z.to_nat ((Z.of_nat y - 128) mod 256))
               (Z.to_nat ((Z.of_nat x - 128) mod 256)).

Definition log_magnitude (F : list (list (R * R))) : list (list R) :=
  tabulate2 256 256 (fun y x => ln (1 + Cabs (centred F y x))).

(** Step 3: the distance of a cell from the centre. *)
Definition distance (y x : nat) : R :=
  sqrt ((INR x - 128) ^ 2 + (INR y - 128) ^ 2).

Definition distances : list (list R) := tabulate2 256 256 distance.

(** Step 4: the log-magnitude summed over the cells of a band. *)
Definition band_sum (band : R -> Prop) `{!forall r, Decision (band r)}
    (mag_log r : list (list R)) : R :=
  Rsum (map fst (filter (fun c => band c.2) (zip (ravel mag_log) (ravel r)))).

(** Steps 4-6. *)
Definition score (mag_log r : list (list R)) (r_max : R) : R :=
  let eps := 1e-8 in
  let total := Rsum (ravel mag_log) in
  let low_energy := band_sum (in_low r_max) mag_log r / (total + eps) in
  let mid_energy := band_sum (in_mid r_max) mag_log r / (total + eps) in
  let high_energy := band_sum (in_high r_max) mag_log r / (total + eps) in
  let balance := (mid_energy + high_energy) / (low_energy + eps) in
  Spec.clamp (0.7 * high_energy + 0.3 * (balance / (balance + 1))) 0 1.

End SpecFrequency.

(** ** What the analyzers compute, as functions of the image *)

Section Models.
Context {cv : OpenCV}.
Local Open Scope R_scope.

(** The rows (or columns) at which an 8-pixel block starts, for an axis of
    length [n]: the values of [range(0, n - 8 + 1, 8)]. *)
Definition block_origins (n : nat) : list Z :=
  range 0 (Z.of_nat n - 8 + 1) 8.

(** What the two loops collect, as a function of the error map. *)
Definition block_variances (error : list (list R)) : list R :=
  flat_map (fun y =>
     map (fun x =>
        var (ravel (slice2 error (Z.to_nat y) (Z.to_nat (y + 8))
                           (Z.to_nat x) (Z.to_nat (x + 8)))))
       (block_origins (shape error).2))
    (block_origins (shape error).1).

(** The values the other three analyzers compute from an image. *)
Definition frequency_value (img : image) : np_float :=
  let r := ravel (radius 256 256) in
  Finite (SpecFrequency.score
            (log_spectrum (resize_area (cvtColor_BGR2GRAY img) 256 256))
            (radius 256 256) (fold_left Rmax (tail r) (hd 0 r))).

Definition compression_value (img dec : image) : np_float :=
  let vs := block_variances (recompression_error img dec) in
  if (length vs =? 0)%nat then Finite 0.5
  else Finite (Rclip (tanh (std vs * 50)) 0 1).

Definition color_value (img : image) : np_float :=
  let rgb := cvtColor_BGR2RGB img in
  let r := channel (fun p => p.1.1) rgb in
  let g := channel (fun p => p.1.2) rgb in
  let b := channel (fun p => p.2) rgb in
  Finite (Rclip ((mean [safe_corr r g; safe_corr r b; safe_corr g b] + 1) / 2)
                0 1).

(** The value [noise_score] computes from an image. *)
Definition noise_value (img : image) : np_float :=
  let entropy := hist_entropy (residual_hist (noise_residual img)) in
  let resid_std := std (ravel (noise_residual img)) in
  let lap_std := std (ravel (laplacian_magnitude img)) / 255 in
  np_clip
    (np_add (np_add (Finite (0.45 * tanh (resid_std * 10)))
                    (Finite (0.35 * tanh (lap_std * 5))))
            (np_mul (Finite 0.20)
                    (lift1 tanh (true_divide entropy (Finite 3)))))
    0 1.

End Models.

(** ** A reference backend and test images

    Nearest-sample resizing and a lossless codec that refuses what JPEG
    cannot hold satisfy the laws of [OpenCV]; the concrete runs below use
    them. *)

Section Reference.

Definition nearest_resize (g : list (list Z)) (w h : nat) : list (list Z) :=
  tabulate2 h w (fun y x =>
    at2 0%Z g (y * length g / h) (x * length (hd [] g) / w)).

Lemma tabulate2_rows {A : Type} (h w : nat) (f : nat -> nat -> A) :
  length (tabulate2 h w f) = h.
Proof. unfold tabulate2. rewrite length_map, length_seq. reflexivity. Qed.

Lemma tabulate2_cols {A : Type} (h w : nat) (f : nat -> nat -> A) :
  Forall (fun row => length row = w) (tabulate2 h w f).
Proof.
  unfold tabulate2. apply Forall_map, Forall_forall. intros y _.
  simpl. rewrite length_map, length_seq. reflexivity.
Qed.

(** A codec that loses nothing, on the images JPEG can hold. *)
Definition lossless_encode (q : Z) (img : image) : option image :=
  if jpeg_fits img then Some img else None.

Lemma lossless_encode_fits (q : Z) (img : image) :
  valid_image img = true ->
  (is_Some (lossless_encode q img) <-> jpeg_fits img = true).
Proof.
  intros _. unfold lossless_encode. destruct (jpeg_fits img).
  - split; [reflexivity | eauto].
  - split; [intros [enc Henc]; discriminate | discriminate].
Qed.

Lemma lossless_encode_shape (q : Z) (img enc : image) :
  lossless_encode q img = Some enc -> map length enc = map length img.
Proof.
  unfold lossless_encode. destruct (jpeg_fits img); [|discriminate].
  intros [= <-]. reflexivity.
Qed.

Definition reference_cv : OpenCV := {|
  resize_area := nearest_resize;
  resize_area_rows := fun g w h => tabulate2_rows h w _;
  resize_area_cols := fun g w h => tabulate2_cols h w _;
  encoded := image;
  imencode_jpg := lossless_encode;
  imdecode := fun enc => enc;
  imencode_jpg_fits := lossless_encode_fits;
  jpeg_same_shape := lossless_encode_shape;
|}.

(** A 4x4 image of one mid-gray colour. *)
Definition gray4x4 : image := repeat (repeat (128, 128, 128)%Z 4) 4.

(** A 4x100 image: shorter than a block, wider than twelve. *)
Definition gray4x100 : image := repeat (repeat (128, 128, 128)%Z 100) 4.

Definition world_of (img : image) : world :=
  World (fun _ => None) [OImage img] [].

(** Two strips of one colour, one pixel across and 65501 pixels long: one
    more than JPEG can hold. *)
Definition strip1x65501 : image := [repeat (0, 0, 0)%Z (Z.to_nat 65501)].

Definition strip65501x1 : image := repeat [(0, 0, 0)%Z] (Z.to_nat 65501).

(** A 4x4 black-and-white image in which every pixel differs from the median
    of its neighbourhood. *)
Definition checker4x4 : image :=
  map (map (fun v : Z => (v, v, v)))
    [[0; 255; 0; 255]; [255; 255; 0; 0]; [0; 0; 255; 255]; [255; 0; 255; 0]]%Z.

End Reference.

(** ** PIL and [extract_metadata] *)

Module Pil.

(** A key of the metadata dict: the name of a tag, or the number of a tag
    that [ExifTags.TAGS] has no name for. *)
Definition key : Type := string + Z.

(** What the program uses of PIL.  [Image_open path] is
    [Image.open(path)].  [getexif image] is [image.getexif()] with the
    iteration of its [items()], in the order of the iteration; an error
    while the entries are decoded is an error of this step.  Both can raise,
    and every exception of [exn] derives from [Exception].  [TAGS] is the
    dict [ExifTags.TAGS]. *)
Class Pillow : Type := {
  pil_image : Type;
  exif_value : Type;
  Image_open : string -> M pil_image;
  getexif : pil_image -> M (list (Z * exif_value));
  TAGS : gmap Z string;
}.

(** [try: body] / [except Exception: handler] *)
Definition try_except {A : Type} (body handler : M A) : M A := fun w =>
  match body w with
  | (Ok a, w') => (Ok a, w')
  | (Raise _, w') => handler w'
  end.

End Pil.

Export Pil.

Section Metadata.
Context {pil : Pillow}.

(** [ExifTags.TAGS.get(tag_id, tag_id)] *)
Definition tag_of (tag_id : Z) : key :=
  match TAGS !! tag_id with
  | Some name => inl name
  | None => inr tag_id
  end.

(** Lines 36-39: the dict the loop fills, later entries replacing earlier
    ones of the same key. *)
Definition metadata (exif_data : list (Z * exif_value))
  : gmap key exif_value :=
  foldl (fun m '(tag_id, value) => <[tag_of tag_id := value]> m) ∅ exif_data.

Definition extract_metadata (image_path : string)
  : M (gmap key exif_value) :=
  try_except
    (image ← Image_open image_path;
     exif_data ← getexif image;
     mret (metadata exif_data))
    (mret ∅).

(** The keys under which the loop stores the entries, in order. *)
Definition keys_of (exif_data : list (Z * exif_value)) : list key :=
  map (fun e => tag_of e.1) exif_data.

End Metadata.

(** A PIL that knows one file, with three EXIF entries, and two tag
    names. *)
Definition reference_pil : Pillow := {|
  pil_image := list (Z * string);
  exif_value := string;
  Image_open := fun path =>
    if String.eqb path "photo.jpg"
    then mret [(271, "ACME"); (272, "One"); (59932, "n/a")]%Z
    else raise (ValueError "cannot identify image file");
  getexif := fun image => mret image;
  TAGS := {[ 271%Z := "Make"; 272%Z := "Model" ]};
|}.

(** ** The tiles of [compression_score] *)

(** The tiles the two loops cut out of the error map, in the order of the
    loops (lines 107-109). *)
Definition blocks (error : list (list R)) : list (list (list R)) :=
  flat_map (fun y =>
     map (fun x =>
        slice2 error (Z.to_nat y) (Z.to_nat (y + 8))
               (Z.to_nat x) (Z.to_nat (x + 8)))
       (block_origins (shape error).2))
    (block_origins (shape error).1).

(** ** More inputs *)

(** A 16x9 image of one colour: two rows of one block. *)
Definition gray16x9 : image := repeat (repeat (128, 128, 128)%Z 9) 16.

(** A 1x2 gray image, black then dark gray. *)
Definition gray1x2 : image := [[(0, 0, 0)%Z; (2, 2, 2)%Z]].

(** ** The executable parts on small inputs *)

Section Evaluation.
Local Open Scope Z_scope.

Example range_two_blocks : range 0 (20 - 8 + 1) 8 = [0; 8].
Proof. reflexivity. Qed.

Example range_no_block : range 0 (7 - 8 + 1) 8 = [].
Proof. reflexivity. Qed.

Example block_origins_16 : block_origins 16 = [0; 8].
Proof. reflexivity. Qed.

Example gray_of_white : gray_of_pixel (255, 255, 255) = 255.
Proof. reflexivity. Qed.

Example gray_of_blue : gray_of_pixel (255, 0, 0) = 29.
Proof. reflexivity. Qed.

Example border_replicate_before : border_replicate 4 (-1) = 0%nat.
Proof. reflexivity. Qed.

Example border_reflect_after : border_reflect_101 4 4 = 2%nat.
Proof. reflexivity. Qed.

Example medianBlur3_corner :
  medianBlur3 [[0; 255]; [255; 255]] = [[255; 255]; [255; 255]].
Proof. reflexivity. Qed.

Example Laplacian_step :
  Laplacian [[0; 0; 9]; [0; 0; 9]] = [[0; 9; -18]; [0; 9; -18]].
Proof. reflexivity. Qed.

Example round32_fifth :
  Float32.round (1 # 5) = (13421773 # 67108864)%Q.
Proof. reflexivity. Qed.

(** Gray 151 over median 100: exactly 0.2 in the reals, one [float32] step
    above the range in the program, and not kept. *)
Example residual_151_100 :
  Float32.sub (Float32.div 151 255) (Float32.div 100 255)
  = (13421774 # 67108864)%Q
  /\ kept32 (Float32.sub (Float32.div 151 255) (Float32.div 100 255))
     = false.
Proof. split; reflexivity. Qed.

(** Gray 51 over median 0: the [float32] nearest to 0.2, and kept. *)
Example residual_51_0 :
  Float32.sub (Float32.div 51 255) (Float32.div 0 255) = range_last32
  /\ kept32 (Float32.sub (Float32.div 51 255) (Float32.div 0 255)) = true.
Proof. split; reflexivity. Qed.

Example strip1x65501_too_large : jpeg_fits strip1x65501 = false.
Proof. vm_compute. reflexivity. Qed.

Example checker4x4_valid : valid_image checker4x4 = true.
Proof. reflexivity. Qed.

Example checker4x4_gray :
  cvtColor_BGR2GRAY checker4x4
  = [[0; 255; 0; 255]; [255; 255; 0; 0]; [0; 0; 255; 255]; [255; 0; 255; 0]]%Z.
Proof. vm_compute. reflexivity. Qed.

Example checker4x4_median :
  medianBlur3 (cvtColor_BGR2GRAY checker4x4)
  = [[255; 0; 255; 0]; [0; 0; 255; 255]; [255; 255; 0; 0]; [0; 255; 0; 255]]%Z.
Proof. vm_compute. reflexivity. Qed.

End Evaluation.

(** * Proofs *)

(** ** Clipping *)

Section Clipping.
Local Open Scope R_scope.

Lemma Rclip_bounds (x lo hi : R) : lo <= hi -> lo <= Rclip x lo hi <= hi.
Proof.
  intros Hle. unfold Rclip, Rmin, Rmax.
  destruct (Rle_dec x lo); destruct (Rle_dec _ hi); lra.
Qed.

Lemma Rclip_clamp (x lo hi : R) :
  lo <= hi -> Rclip x lo hi = Spec.clamp x lo hi.
Proof.
  intros Hle. unfold Rclip, Spec.clamp, Rmin, Rmax.
  destruct (Rle_dec x lo); destruct (Rle_dec _ hi);
    destruct (Rlt_dec x lo); destruct (Rlt_dec hi x); lra.
Qed.

Lemma Rclip_id (x lo hi : R) : lo <= x <= hi -> Rclip x lo hi = x.
Proof.
  intros Hx. unfold Rclip, Rmin, Rmax.
  destruct (Rle_dec x lo); destruct (Rle_dec _ hi); lra.
Qed.

End Clipping.

(** ** The aggregator *)

Section Aggregator.
Local Open Scope R_scope.

(** C1.  For all four sub-scores [f], [n], [c], [s] the report's
    [forensic_score] is [clip(0.35 f + 0.30 n + 0.20 c + 0.15 s, 0, 1)], and
    the four weights sum to 1. *)
Theorem forensic_score_weighted_sum (f n c s : R) :
  forensic_report (Finite f) (Finite n) (Finite c) (Finite s)
    !! "forensic_score" = Some (Finite (Spec.forensic_score f n c s))
  /\ w_freq + w_noise + w_comp + w_color = 1.
Proof.
  split.
  - unfold forensic_report, Spec.forensic_score.
    cbn [np_add np_mul np_clip lift1 lift2].
    rewrite Rclip_clamp by lra.
    unfold w_freq, w_noise, w_comp, w_color.
    replace (0.30) with (0.3) by lra. replace (0.20) with (0.2) by lra.
    reflexivity.
  - unfold w_freq, w_noise, w_comp, w_color. lra.
Qed.

End Aggregator.

(** The same weights as binary64 numbers, added in the order of line 147:
    the sum is the largest double below 1, one rounding error away from it
    and well inside the tolerance of [1e-9] the specification allows. *)
Module Binary64.
Import PrimFloat.
#[local] Set Warnings "-inexact-float".

Remark weights_sum :
  (0.35 + 0.3 + 0.2 + 0.15)%float = 0x1.fffffffffffffp-1%float.
Proof. reflexivity. Qed.

Remark weights_sum_error :
  (1 - (0.35 + 0.3 + 0.2 + 0.15))%float = 0x1p-53%float.
Proof. reflexivity. Qed.

(** Line 147 at four sub-scores of 0.5: one rounding step below 0.5. *)
Remark aggregate_of_halves :
  (0.35 * 0.5 + 0.3 * 0.5 + 0.2 * 0.5 + 0.15 * 0.5)%float
  = 0x1.fffffffffffffp-2%float.
Proof. reflexivity. Qed.

End Binary64.

(** ** Running the monad *)

Section Runtime.

Lemma world_eta (w : world) : World (files w) (heap w) (calls w) = w.
Proof. destruct w; reflexivity. Qed.

Lemma run_bind {A B : Type} (m : M A) (f : A -> M B) (w w' : world) (a : A) :
  run m w = (Ok a, w') -> run (m ≫= f) w = run (f a) w'.
Proof. unfold run, mbind, M_bind. intros ->. reflexivity. Qed.

Lemma run_bind_raise {A B : Type} (m : M A) (f : A -> M B) (w w' : world)
    (e : exn) :
  run m w = (Raise e, w') -> run (m ≫= f) w = (Raise e, w').
Proof. unfold run, mbind, M_bind. intros ->. reflexivity. Qed.

Lemma run_load_image (w : world) (l : loc) (img : image) :
  heap w !! l = Some (OImage img) -> run (load_image l) w = (Ok img, w).
Proof. unfold run, load_image. intros ->. reflexivity. Qed.

Lemma run_append (w : world) (v : loc) (acc : list R) (x : R) :
  heap w !! v = Some (OList acc) ->
  run (append v x) w
  = (Ok tt, World (files w) (<[v := OList (acc ++ [x])]> (heap w)) (calls w)).
Proof. unfold run, append. intros ->. reflexivity. Qed.

(** A loop that only appends leaves the list extended by the values of its
    body, in order. *)
Lemma run_for_append {A : Type} (xs : list A) (F : A -> R) (v : loc) :
  forall (w : world) (acc : list R),
    heap w !! v = Some (OList acc) ->
    run (for_ xs (fun x => append v (F x))) w
    = (Ok tt,
       World (files w) (<[v := OList (acc ++ map F xs)]> (heap w)) (calls w)).
Proof.
  induction xs as [|x xs IH]; intros w acc Hv; simpl.
  - rewrite app_nil_r, list_insert_id by exact Hv.
    rewrite world_eta. reflexivity.
  - erewrite run_bind by (apply run_append; exact Hv).
    assert (Hlt : (v < length (heap w))%nat) by (eapply lookup_lt_Some; eauto).
    rewrite (IH _ (acc ++ [F x])); simpl.
    + rewrite list_insert_insert_eq, <- app_assoc. reflexivity.
    + apply list_lookup_insert_eq. exact Hlt.
Qed.

Lemma run_for_for_append {A B : Type} (ys : list A) (xs : list B)
    (F : A -> B -> R) (v : loc) :
  forall (w : world) (acc : list R),
    heap w !! v = Some (OList acc) ->
    run (for_ ys (fun y => for_ xs (fun x => append v (F y x)))) w
    = (Ok tt,
       World (files w)
         (<[v := OList (acc ++ flat_map (fun y => map (F y) xs) ys)]> (heap w))
         (calls w)).
Proof.
  induction ys as [|y ys IH]; intros w acc Hv; simpl.
  - rewrite app_nil_r, list_insert_id by exact Hv.
    rewrite world_eta. reflexivity.
  - erewrite run_bind by (apply run_for_append; exact Hv).
    assert (Hlt : (v < length (heap w))%nat) by (eapply lookup_lt_Some; eauto).
    rewrite (IH _ (acc ++ map (F y) xs)); simpl.
    + rewrite list_insert_insert_eq, <- app_assoc. reflexivity.
    + apply list_lookup_insert_eq. exact Hlt.
Qed.

Lemma lookup_after2 {A : Type} (h : list A) (a b : A) :
  (h ++ [a; b]) !! length (h ++ [a]) = Some b.
Proof.
  rewrite length_app. simpl. rewrite lookup_app_r by lia.
  replace (length h + 1 - length h)%nat with 1%nat by lia. reflexivity.
Qed.

End Runtime.

(** One step of a run whose outcome is found by computation. *)
Ltac run_step := erewrite run_bind by reflexivity.

(** ** [compression_score] *)

Section Compression.
Context {cv : OpenCV}.
Local Open Scope R_scope.

Lemma block_origins_length (n : nat) : length (block_origins n) = (n / 8)%nat.
Proof.
  unfold block_origins, range. rewrite length_map, length_seq.
  replace (Z.of_nat n - 8 + 1 - 0 + 8 - 1)%Z with (Z.of_nat n) by lia.
  rewrite <- (Nat2Z.id (n / 8)). f_equal.
  rewrite Nat2Z.inj_div. reflexivity.
Qed.

Lemma block_origins_nil (n : nat) : block_origins n = [] <-> (n < 8)%nat.
Proof.
  rewrite <- length_zero_iff_nil, block_origins_length. split.
  - intros H. destruct (Nat.lt_ge_cases n 8) as [|Hge]; [assumption|].
    pose proof (Nat.Div0.div_le_mono 8 n 8 Hge) as Hd.
    rewrite Nat.div_same in Hd by lia. lia.
  - intros H. apply Nat.div_small. exact H.
Qed.

Lemma length_flat_map_map {A B C : Type} (F : A -> B -> C)
    (ys : list A) (xs : list B) :
  length (flat_map (fun y => map (F y) xs) ys) = (length ys * length xs)%nat.
Proof.
  induction ys as [|y ys IH]; simpl.
  - reflexivity.
  - rewrite length_app, length_map, IH. reflexivity.
Qed.

Lemma block_variances_length (error : list (list R)) :
  length (block_variances error)
  = ((shape error).1 / 8 * ((shape error).2 / 8))%nat.
Proof.
  unfold block_variances.
  rewrite length_flat_map_map, !block_origins_length. reflexivity.
Qed.

Lemma zip_with_lengths {A B C : Type} (f : A -> B -> C)
    (a : list (list A)) (b : list (list B)) :
  map length b = map length a ->
  map length (zip_with (zip_with f) a b) = map length a.
Proof.
  revert b. induction a as [|r a IH]; intros [|s b] Hl; simpl in *;
    try discriminate; try reflexivity.
  injection Hl as Hrs Hab. rewrite length_zip_with, Hrs, Nat.min_id.
  f_equal. apply IH. exact Hab.
Qed.

Lemma shape_map_length {A B : Type} (a : list (list A)) (b : list (list B)) :
  map length a = map length b -> shape a = shape b.
Proof.
  unfold shape. intros H.
  assert (Hl : length a = length b).
  { rewrite <- (length_map length a), H, length_map. reflexivity. }
  rewrite Hl. f_equal.
  destruct a, b; simpl in *; try discriminate; [reflexivity|].
  injection H as H _. exact H.
Qed.

Lemma map_length_map2d {A B : Type} (f : A -> B) (a : list (list A)) :
  map length (map2d f a) = map length a.
Proof.
  unfold map2d. rewrite map_map. apply map_ext.
  intros row. apply length_map.
Qed.

(** The error map has the shape of the image. *)
Lemma recompression_error_shape (img dec : image) :
  map length dec = map length img ->
  shape (recompression_error img dec) = shape img.
Proof.
  intros Hdec. apply shape_map_length. unfold recompression_error, zip2d.
  rewrite zip_with_lengths; unfold cvtColor_BGR2GRAY;
    fold (map2d gray_of_pixel img); fold (map2d gray_of_pixel dec);
    rewrite !map_length_map2d.
  - reflexivity.
  - exact Hdec.
Qed.

(** The encoder fails on a decoded image exactly when JPEG cannot hold
    it. *)
Lemma imencode_jpg_too_large (q : Z) (img : image) :
  valid_image img = true -> jpeg_fits img = false ->
  imencode_jpg q img = None.
Proof.
  intros Hv Hfit. destruct (imencode_jpg q img) as [enc|] eqn:Henc;
    [|reflexivity].
  assert (Hsome : is_Some (imencode_jpg q img)) by (rewrite Henc; eauto).
  apply (imencode_jpg_fits q img Hv) in Hsome. congruence.
Qed.

Lemma imencode_jpg_encodes (q : Z) (img : image) :
  valid_image img = true -> jpeg_fits img = true ->
  exists enc : encoded, imencode_jpg q img = Some enc.
Proof.
  intros Hv Hfit. apply (imencode_jpg_fits q img Hv) in Hfit.
  destruct Hfit as [enc Henc]. exists enc. exact Henc.
Qed.

(** The run of [compression_score] on an image object the encoder
    accepts. *)
Lemma compression_score_run (w : world) (l : loc) (img : image)
    (enc : encoded) :
  heap w !! l = Some (OImage img) ->
  imencode_jpg 85 img = Some enc ->
  let error := recompression_error img (imdecode enc) in
  let vs := block_variances error in
  run (compression_score l) w
  = (Ok (if (length vs =? 0)%nat then Finite 0.5
         else Finite (Rclip (tanh (std vs * 50)) 0 1),
         length (heap w)),
     World (files w) (heap w ++ [OArray error; OList vs])
           (calls w ++ ["compression_score"])).
Proof.
  intros Hl Henc error vs. unfold compression_score.
  run_step.
  erewrite run_bind by (apply run_load_image; exact Hl).
  cbv zeta. rewrite Henc.
  run_step.
  fold error.
  run_step.
  cbv beta iota zeta. unfold shape at 1.
  run_step.
  erewrite run_bind.
  2:{ apply run_for_for_append with (acc := []). simpl.
      rewrite lookup_app_r by (rewrite length_app; simpl; lia).
      rewrite length_app. simpl.
      replace (length (heap w) + 1 - (length (heap w) + 1))%nat with 0%nat
        by lia.
      reflexivity. }
  simpl heap. simpl files. simpl calls.
  assert (Hins : forall xs : list R,
    <[length (heap w ++ [OArray error]) := OList ([] ++ xs)]>
      ((heap w ++ [OArray error]) ++ [OList []])
    = heap w ++ [OArray error; OList xs]).
  { intros xs. rewrite insert_app_r_alt by lia. rewrite Nat.sub_diag. simpl.
    rewrite <- app_assoc. reflexivity. }
  rewrite Hins.
  erewrite run_bind.
  2:{ unfold run, load_list. simpl heap. rewrite lookup_after2. reflexivity. }
  subst vs. unfold block_variances, block_origins, shape. cbn [fst snd].
  match goal with
  | |- context [(?n =? 0)%nat] => destruct (n =? 0)%nat
  end; reflexivity.
Qed.

(** The run on an image object the encoder refuses: line 99 drops the
    flag, line 100 raises, and nothing is allocated. *)
Lemma compression_score_raises (w : world) (l : loc) (img : image) :
  heap w !! l = Some (OImage img) ->
  imencode_jpg 85 img = None ->
  run (compression_score l) w
  = (Raise (cv2_error "imdecode_: !buf.empty()"),
     World (files w) (heap w) (calls w ++ ["compression_score"])).
Proof.
  intros Hl Henc. unfold compression_score.
  run_step.
  erewrite run_bind by (apply run_load_image; exact Hl).
  cbv zeta. rewrite Henc.
  erewrite run_bind_raise by reflexivity. reflexivity.
Qed.

(** X19.  On a decoded image that JPEG can hold, [compression_score]
    returns; the list of block variances is empty exactly when the image is
    less than 8 high or less than 8 wide, and then the score is the neutral
    0.5. *)
Theorem compression_score_default (w : world) (l : loc) (img : image) :
  heap w !! l = Some (OImage img) ->
  valid_image img = true ->
  jpeg_fits img = true ->
  exists (score : np_float) (out : loc) (vs : list R) (w' : world),
    run (compression_score l) w = (Ok (score, out), w')
    /\ heap w' !! S out = Some (OList vs)
    /\ (vs = [] <-> (length img < 8)%nat \/ (length (hd [] img) < 8)%nat)
    /\ (vs = [] -> score = Finite 0.5).
Proof.
  intros Hl Hv Hfit.
  destruct (imencode_jpg_encodes 85 img Hv Hfit) as [enc Henc].
  pose proof (compression_score_run w l img enc Hl Henc) as Hrun.
  cbv zeta in Hrun.
  set (vs := block_variances (recompression_error img (imdecode enc))) in *.
  assert (Hiff : vs = [] <->
            (length img < 8)%nat \/ (length (hd [] img) < 8)%nat).
  { rewrite <- length_zero_iff_nil. subst vs.
    rewrite block_variances_length,
      (recompression_error_shape img _ (jpeg_same_shape 85 img enc Henc)).
    unfold shape. cbn [fst snd]. rewrite Nat.eq_mul_0.
    rewrite <- !block_origins_length, !length_zero_iff_nil,
      !block_origins_nil. reflexivity. }
  eexists _, _, vs, _. split; [exact Hrun|]. split; [|split].
  - simpl. rewrite lookup_app_r by lia.
    replace (S (length (heap w)) - length (heap w))%nat with 1%nat by lia.
    reflexivity.
  - exact Hiff.
  - intros ->. reflexivity.
Qed.

End Compression.

Section CompressionClaims.
Context {cv : OpenCV}.
Local Open Scope R_scope.


(** C10 fails on [strip65501x1], a decodable image 65501 pixels high and
    one pixel wide: less than 8 wide, so the claim gives it the neutral
    0.5, but the encoder fails on it as it does on [strip1x65501], and
    [compression_score] raises [cv2.error]. *)
Theorem compression_score_narrow_raises :
  valid_image strip65501x1 = true
  /\ (length (hd [] strip65501x1) < 8)%nat
  /\ block_origins (length (hd [] strip65501x1)) = []
  /\ run (compression_score 0%nat) (world_of strip65501x1)
     = (Raise (cv2_error "imdecode_: !buf.empty()"),
        World (fun _ => None) [OImage strip65501x1] ["compression_score"]).
Proof.
  assert (Hv : valid_image strip65501x1 = true) by (vm_compute; reflexivity).
  split; [exact Hv|]. split; [vm_compute; lia|]. split; [reflexivity|].
  apply (compression_score_raises (world_of strip65501x1) 0%nat
           strip65501x1); [reflexivity|].
  apply imencode_jpg_too_large; [exact Hv|]. vm_compute. reflexivity.
Qed.

End CompressionClaims.

(** A 4x100 image scores 0.5. *)
Lemma compression_score_default_witness :
  exists (out : loc) (w' : world),
    run (compression_score (cv := reference_cv) 0) (world_of gray4x100)
    = (Ok (Finite 0.5%R, out), w').
Proof.
  destruct (compression_score_default (cv := reference_cv)
              (world_of gray4x100) 0%nat gray4x100 eq_refl eq_refl eq_refl)
    as (score & out & vs & w' & Hrun & _ & Hiff & Hscore).
  exists out, w'. rewrite <- Hscore; [exact Hrun|].
  apply Hiff. left. simpl. lia.
Defined.

(** ** [color_corr_score] *)

Section ColorCorrelation.
Local Open Scope R_scope.

Lemma Rsum_constant (c : R) (l : list R) :
  Forall (eq c) l -> Rsum l = INR (length l) * c.
Proof.
  induction 1 as [|x l Hx _ IH].
  - simpl. lra.
  - subst x. change (Rsum (c :: l)) with (c + Rsum l).
    rewrite IH. change (length (c :: l)) with (S (length l)).
    rewrite S_INR. lra.
Qed.

Lemma mean_constant (c : R) (l : list R) :
  l <> [] -> Forall (eq c) l -> mean l = c.
Proof.
  intros Hne Hc. unfold mean. rewrite (Rsum_constant c) by exact Hc.
  assert (Hn : INR (length l) <> 0).
  { apply not_0_INR. destruct l; [congruence | discriminate]. }
  field. exact Hn.
Qed.

(** A constant array has standard deviation exactly 0. *)
Lemma std_constant (c : R) (l : list R) :
  l <> [] -> Forall (eq c) l -> std l = 0.
Proof.
  intros Hne Hc. unfold std, var.
  rewrite (mean_constant c l Hne Hc).
  rewrite (mean_constant 0).
  - apply sqrt_0.
  - destruct l; [congruence | discriminate].
  - apply Forall_map. eapply Forall_impl; [exact Hc|].
    intros x <-. simpl. lra.
Qed.

Lemma safe_corr_flat_l (a b : list Z) (c : Z) :
  a <> [] -> Forall (eq c) a -> safe_corr a b = 0.
Proof.
  intros Hne Hc. unfold safe_corr.
  rewrite (std_constant (IZR c)).
  - unfold Rltb. destruct (Rlt_dec 0 1e-6) as [_|Hn]; [reflexivity | lra].
  - destruct a; [congruence | discriminate].
  - apply Forall_map. eapply Forall_impl; [exact Hc|].
    intros x <-. reflexivity.
Qed.

Lemma channel_flat (k : pixel -> Z) (img : image) (p : pixel) :
  Forall (Forall (eq p)) img -> Forall (eq (k p)) (channel k img).
Proof.
  intros Hflat. unfold channel, ravel, map2d.
  induction Hflat as [|row img Hrow _ IH]; simpl.
  - constructor.
  - apply Forall_app. split; [|exact IH].
    apply Forall_map. eapply Forall_impl; [exact Hrow|].
    intros q <-. reflexivity.
Qed.

Lemma cvtColor_BGR2RGB_flat (img : image) (p : pixel) :
  Forall (Forall (eq p)) img ->
  Forall (Forall (eq (p.2, p.1.2, p.1.1))) (cvtColor_BGR2RGB img).
Proof.
  intros Hflat. unfold cvtColor_BGR2RGB.
  apply Forall_map. eapply Forall_impl; [exact Hflat|].
  intros row Hrow. simpl. apply Forall_map.
  eapply Forall_impl; [exact Hrow|].
  intros q <-. destruct p as [[b g] r]. reflexivity.
Qed.

Lemma cvtColor_BGR2RGB_valid (img : image) :
  valid_image img = true -> channel (fun p => p.2) (cvtColor_BGR2RGB img) <> []
  /\ channel (fun p => p.1.2) (cvtColor_BGR2RGB img) <> []
  /\ channel (fun p => p.1.1) (cvtColor_BGR2RGB img) <> [].
Proof.
  unfold valid_image. intros Hv.
  apply andb_prop in Hv as [Hv _]. apply andb_prop in Hv as [Hv _].
  apply andb_prop in Hv as [Hh Hw].
  apply Nat.ltb_lt in Hh, Hw.
  destruct img as [|[|q row] img]; simpl in *; try lia.
  unfold channel, ravel, map2d. simpl. repeat split; discriminate.
Qed.

(** The run of [color_corr_score] on an image object. *)
Lemma color_corr_score_run (w : world) (l : loc) (img : image) :
  heap w !! l = Some (OImage img) ->
  let rgb := cvtColor_BGR2RGB img in
  let r := channel (fun p => p.1.1) rgb in
  let g := channel (fun p => p.1.2) rgb in
  let b := channel (fun p => p.2) rgb in
  run (color_corr_score l) w
  = (Ok (Finite (Rclip
           ((mean [safe_corr r g; safe_corr r b; safe_corr g b] + 1) / 2)
           0 1)),
     World (files w) (heap w) (calls w ++ ["color_corr_score"])).
Proof.
  intros Hl rgb r g b. unfold color_corr_score.
  run_step.
  erewrite run_bind by (apply run_load_image; exact Hl).
  reflexivity.
Qed.

(** C6.  On a flat image (every pixel the same colour [p]) each channel has
    standard deviation 0, below [1e-6]; each of the three correlations falls
    back to 0; and [color_corr_score] returns exactly 0.5. *)
Theorem color_corr_score_flat (w : world) (l : loc) (img : image) (p : pixel) :
  heap w !! l = Some (OImage img) ->
  valid_image img = true ->
  Forall (Forall (eq p)) img ->
  let rgb := cvtColor_BGR2RGB img in
  let r := channel (fun p => p.1.1) rgb in
  let g := channel (fun p => p.1.2) rgb in
  let b := channel (fun p => p.2) rgb in
  (std (map IZR r) < 1e-6 /\ std (map IZR g) < 1e-6 /\ std (map IZR b) < 1e-6)
  /\ (safe_corr r g = 0 /\ safe_corr r b = 0 /\ safe_corr g b = 0)
  /\ exists w' : world, run (color_corr_score l) w = (Ok (Finite 0.5), w').
Proof.
  intros Hl Hv Hflat rgb r g b.
  pose proof (cvtColor_BGR2RGB_flat img p Hflat) as Hrgb. fold rgb in Hrgb.
  destruct (cvtColor_BGR2RGB_valid img Hv) as (Hb & Hg & Hr).
  fold rgb in Hb, Hg, Hr. fold b in Hb. fold g in Hg. fold r in Hr.
  pose proof (channel_flat (fun p => p.1.1) rgb _ Hrgb) as Fr.
  pose proof (channel_flat (fun p => p.1.2) rgb _ Hrgb) as Fg.
  pose proof (channel_flat (fun p => p.2) rgb _ Hrgb) as Fb.
  fold r in Fr. fold g in Fg. fold b in Fb.
  assert (Hstd : forall (a : list Z) (c : Z),
            a <> [] -> Forall (eq c) a -> std (map IZR a) < 1e-6).
  { intros a c Ha Hc. rewrite (std_constant (IZR c)).
    - lra.
    - destruct a; [congruence | discriminate].
    - apply Forall_map. eapply Forall_impl; [exact Hc|].
      intros x <-. reflexivity. }
  assert (Hrg : safe_corr r g = 0) by (eapply safe_corr_flat_l; eauto).
  assert (Hrb : safe_corr r b = 0) by (eapply safe_corr_flat_l; eauto).
  assert (Hgb : safe_corr g b = 0) by (eapply safe_corr_flat_l; eauto).
  split; [|split].
  - repeat split; eapply Hstd; eauto.
  - auto.
  - eexists. rewrite (color_corr_score_run w l img Hl). cbv zeta.
    fold rgb. fold r. fold g. fold b. rewrite Hrg, Hrb, Hgb.
    replace (Rclip ((mean [0; 0; 0] + 1) / 2) 0 1) with 0.5; [reflexivity|].
    unfold mean, Rsum. simpl.
    rewrite Rclip_id; lra.
Qed.

End ColorCorrelation.

(** The 4x4 gray image is flat and scores 0.5. *)
Lemma color_corr_score_flat_witness :
  exists w' : world,
    run (color_corr_score 0) (world_of gray4x4) = (Ok (Finite 0.5%R), w').
Proof.
  destruct (color_corr_score_flat (world_of gray4x4) 0%nat gray4x4
              (128, 128, 128)%Z eq_refl eq_refl) as (_ & _ & Hrun).
  - repeat constructor.
  - exact Hrun.
Defined.

(** ** [frequency_score] *)

Section Frequency.
Context {cv : OpenCV}.
Local Open Scope R_scope.
Import SpecFrequency.

Lemma ravel_map2d {A B : Type} (f : A -> B) (a : list (list A)) :
  ravel (map2d f a) = map f (ravel a).
Proof.
  unfold ravel, map2d. induction a as [|row a IH]; simpl.
  - reflexivity.
  - rewrite map_app, IH. reflexivity.
Qed.

(** Selecting by a boolean mask computed from [r] is selecting the cells
    whose radius satisfies the property the mask decides. *)
Lemma masked_sum_band (band : R -> Prop) `{!forall r, Decision (band r)}
    (test : R -> bool) (mag_log r : list (list R)) :
  (forall v, test v = true <-> band v) ->
  masked_sum mag_log (map2d test r) = band_sum band mag_log r.
Proof.
  intros Htest. unfold masked_sum, band_sum. rewrite ravel_map2d.
  f_equal. f_equal.
  generalize (ravel mag_log) as a. induction (ravel r) as [|v b IH];
    intros [|x a]; simpl; try reflexivity.
  rewrite filter_cons. simpl.
  destruct (test v) eqn:Hv; destruct (decide (band v)) as [Hb|Hb].
  - simpl. rewrite IH. reflexivity.
  - apply Htest in Hv. contradiction.
  - apply Htest in Hb. congruence.
  - apply IH.
Qed.

Lemma Rleb_true (x y : R) : Rleb x y = true <-> x <= y.
Proof.
  unfold Rleb. destruct (Rle_dec x y); split; intros; congruence || lra.
Qed.

Lemma Rltb_true (x y : R) : Rltb x y = true <-> x < y.
Proof.
  unfold Rltb. destruct (Rlt_dec x y); split; intros; congruence || lra.
Qed.

(** [a.max()] of a non-empty array is one of its entries and bounds all of
    them. *)
Lemma fold_left_Rmax_max (l : list R) :
  forall x : R,
    In (fold_left Rmax l x) (x :: l)
    /\ Forall (fun v => v <= fold_left Rmax l x) (x :: l).
Proof.
  induction l as [|y l IH]; intros x; simpl.
  - split; [left; reflexivity | constructor; [lra | constructor]].
  - destruct (IH (Rmax x y)) as [Hin Hall]. split.
    + destruct Hin as [Hin|Hin]; [|right; right; exact Hin].
      rewrite <- Hin. unfold Rmax. destruct (Rle_dec x y); auto.
    + inversion Hall as [|? ? Hm Hrest]; subst.
      constructor; [|constructor]; try exact Hrest.
      * pose proof (Rmax_l x y). lra.
      * pose proof (Rmax_r x y). lra.
Qed.

Lemma ravel_tabulate2_nonempty {A : Type} (h w : nat) (f : nat -> nat -> A) :
  (0 < h)%nat -> (0 < w)%nat -> ravel (tabulate2 h w f) <> [].
Proof.
  intros Hh Hw. destruct h as [|h]; [lia|]. destruct w as [|w]; [lia|].
  unfold ravel, tabulate2. simpl. discriminate.
Qed.

Lemma resize_area_shape (g : list (list Z)) (w h : nat) :
  (0 < h)%nat -> shape (resize_area g w h) = (h, w).
Proof.
  intros Hh. unfold shape. rewrite resize_area_rows. f_equal.
  pose proof (resize_area_rows g w h) as Hrows.
  pose proof (resize_area_cols g w h) as Hcols.
  destruct (resize_area g w h) as [|row rest]; simpl in *; [lia|].
  inversion Hcols; assumption.
Qed.

(** The run of [frequency_score] on an image object: the score is the
    specification's formula at the log-magnitude spectrum, the radii of the
    256x256 grid, and the largest of these radii. *)
Lemma frequency_score_run (img : image) :
  let mag_log :=
    log_spectrum (resize_area (cvtColor_BGR2GRAY img) 256 256) in
  let r := radius 256 256 in
  exists max_r : R,
    In max_r (ravel r)
    /\ Forall (fun v => v <= max_r) (ravel r)
    /\ forall (w : world) (l : loc),
        heap w !! l = Some (OImage img) ->
        run (frequency_score l) w
        = (Ok (Finite (SpecFrequency.score mag_log r max_r),
               length (heap w)),
           World (files w) (heap w ++ [OArray mag_log])
                 (calls w ++ ["frequency_score"])).
Proof.
  intros mag_log r.
  assert (Hne : ravel r <> []) by (apply ravel_tabulate2_nonempty; lia).
  destruct (ravel r) as [|x rest] eqn:Hr; [congruence|].
  destruct (fold_left_Rmax_max rest x) as [Hin Hall].
  exists (fold_left Rmax rest x). split; [exact Hin|]. split; [exact Hall|].
  intros w l Hl. unfold frequency_score.
  run_step.
  erewrite run_bind by (apply run_load_image; exact Hl).
  rewrite resize_area_shape by lia. fold mag_log. fold r. rewrite Hr.
  run_step.
  run_step.
  unfold run, mret, M_ret. simpl files. simpl heap. simpl calls.
  f_equal. f_equal. f_equal.
  unfold SpecFrequency.score.
  rewrite Rclip_clamp by lra.
  unfold low_mask, mid_mask, high_mask.
  rewrite (masked_sum_band (in_high (fold_left Rmax rest x))).
  2:{ intros v. rewrite Rltb_true. unfold in_high. lra. }
  rewrite (masked_sum_band (in_mid (fold_left Rmax rest x))).
  2:{ intros v. rewrite andb_true_iff, Rltb_true, Rleb_true. reflexivity. }
  rewrite (masked_sum_band (in_low (fold_left Rmax rest x))).
  2:{ intros v. rewrite Rleb_true. reflexivity. }
  f_equal. f_equal. ring.
Qed.

End Frequency.

Section FrequencyBands.
Context {cv : OpenCV}.
Local Open Scope R_scope.
Import SpecFrequency.

Lemma length_ravel_rows {A : Type} (f : nat -> nat -> A) (w h s : nat) :
  length (ravel (map (fun y => map (fun x => f y x) (seq 0 w)) (seq s h)))
  = (h * w)%nat.
Proof.
  revert s. induction h as [|h IH]; intros s.
  - reflexivity.
  - change (seq s (S h)) with (s :: seq (S s) h). unfold ravel in *.
    rewrite map_cons, concat_cons, length_app, IH, length_map, length_seq.
    reflexivity.
Qed.

Lemma length_ravel_tabulate2 {A : Type} (h w : nat) (f : nat -> nat -> A) :
  length (ravel (tabulate2 h w f)) = (h * w)%nat.
Proof. apply length_ravel_rows. Qed.

Lemma shape_tabulate2 {A : Type} (h w : nat) (f : nat -> nat -> A) :
  (0 < h)%nat -> shape (tabulate2 h w f) = (h, w).
Proof.
  intros Hh. unfold shape. rewrite tabulate2_rows. f_equal.
  destruct h as [|h]; [lia|]. unfold tabulate2.
  change (seq 0 (S h)) with (0%nat :: seq 1 h). rewrite map_cons.
  cbn [hd]. rewrite length_map, length_seq. reflexivity.
Qed.

Lemma shape_map2d {A B : Type} (f : A -> B) (a : list (list A)) :
  shape (map2d f a) = shape a.
Proof. apply shape_map_length, map_length_map2d. Qed.

(** The spectrum has one entry per cell of the 256x256 grid. *)
Lemma log_spectrum_cells (g : list (list Z)) :
  length (ravel (log_spectrum (resize_area g 256 256)))
  = length (ravel (radius 256 256)).
Proof.
  unfold log_spectrum, radius.
  rewrite !ravel_map2d, !length_map. unfold fftshift, fft2.
  rewrite shape_map2d, resize_area_shape by lia.
  rewrite shape_tabulate2 by lia.
  rewrite !length_ravel_tabulate2. reflexivity.
Qed.

Lemma radius_nonneg (h w : nat) : Forall (fun v => 0 <= v) (ravel (radius h w)).
Proof.
  unfold radius, ravel, tabulate2. apply Forall_concat, Forall_map.
  apply Forall_forall. intros y _. simpl. apply Forall_map.
  apply Forall_forall. intros x _. simpl. apply sqrt_pos.
Qed.

(** For a non-negative largest radius every radius is in exactly one band. *)
Lemma bands_exclusive (r_max v : R) :
  0 <= r_max ->
  (in_low r_max v /\ ~ in_mid r_max v /\ ~ in_high r_max v)
  \/ (~ in_low r_max v /\ in_mid r_max v /\ ~ in_high r_max v)
  \/ (~ in_low r_max v /\ ~ in_mid r_max v /\ in_high r_max v).
Proof.
  intros Hmax. unfold in_low, in_mid, in_high.
  destruct (Rle_dec v (0.25 * r_max)); destruct (Rle_dec v (0.6 * r_max));
    [left | left | right; left | right; right]; lra.
Qed.

(** The three band sums add up to the sum over the whole grid. *)
Lemma band_sums_total (r_max : R) (a b : list R) :
  0 <= r_max -> length a = length b ->
  Rsum (map fst (filter (fun c => in_low r_max c.2) (zip a b)))
  + Rsum (map fst (filter (fun c => in_mid r_max c.2) (zip a b)))
  + Rsum (map fst (filter (fun c => in_high r_max c.2) (zip a b)))
  = Rsum a.
Proof.
  intros Hmax. revert b. induction a as [|x a IH]; intros [|v b] Hlen;
    simpl in Hlen; try discriminate.
  - simpl. lra.
  - injection Hlen as Hlen. specialize (IH b Hlen).
    change (zip (x :: a) (v :: b)) with ((x, v) :: zip a b).
    rewrite !filter_cons. cbn [snd].
    change (Rsum (x :: a)) with (x + Rsum a). rewrite <- IH.
    destruct (bands_exclusive r_max v Hmax)
      as [(Hl & Hm & Hh) | [(Hl & Hm & Hh) | (Hl & Hm & Hh)]];
      destruct (decide (in_low r_max v)); try contradiction;
      destruct (decide (in_mid r_max v)); try contradiction;
      destruct (decide (in_high r_max v)); try contradiction;
      simpl; lra.
Qed.

Lemma map_seq_ext {A : Type} (f g : nat -> A) (s n : nat) :
  (forall i, (s <= i < s + n)%nat -> f i = g i) ->
  map f (seq s n) = map g (seq s n).
Proof.
  intros Hfg. apply map_ext_in. intros i Hi. apply Hfg.
  apply in_seq in Hi. lia.
Qed.

Lemma tabulate2_ext {A : Type} (h w : nat) (f g : nat -> nat -> A) :
  (forall y x, (y < h)%nat -> (x < w)%nat -> f y x = g y x) ->
  tabulate2 h w f = tabulate2 h w g.
Proof.
  intros Hfg. unfold tabulate2. apply map_seq_ext. intros y Hy.
  apply map_seq_ext. intros x Hx. apply Hfg; lia.
Qed.

Lemma map2d_tabulate2 {A B : Type} (k : A -> B) (h w : nat)
    (f : nat -> nat -> A) :
  map2d k (tabulate2 h w f) = tabulate2 h w (fun y x => k (f y x)).
Proof.
  unfold map2d, tabulate2. rewrite map_map. apply map_ext. intros y.
  apply map_map.
Qed.

Lemma In_ravel_tabulate2 {A : Type} (h w : nat) (f : nat -> nat -> A)
    (y x : nat) :
  (y < h)%nat -> (x < w)%nat -> In (f y x) (ravel (tabulate2 h w f)).
Proof.
  intros Hy Hx. unfold ravel, tabulate2. apply in_concat.
  exists (map (fun x => f y x) (seq 0 w)). split.
  - apply in_map_iff. exists y. split; [reflexivity|]. apply in_seq. lia.
  - apply in_map_iff. exists x. split; [reflexivity|]. apply in_seq. lia.
Qed.

Lemma Forall_ravel_tabulate2 {A : Type} (P : A -> Prop) (h w : nat)
    (f : nat -> nat -> A) :
  (forall y x, (y < h)%nat -> (x < w)%nat -> P (f y x)) ->
  Forall P (ravel (tabulate2 h w f)).
Proof.
  intros Hf. unfold ravel, tabulate2. apply Forall_concat, Forall_map.
  apply Forall_forall. intros y Hy. apply list_elem_of_In, in_seq in Hy.
  cbv beta. apply Forall_map, Forall_forall. intros x Hx.
  apply list_elem_of_In, in_seq in Hx. cbv beta. apply Hf; lia.
Qed.

(** [np.fft.fftshift] on an axis of 256 entries moves entry [k - 128]
    (mod 256) to place [k]. *)
Lemma shift_index (i : nat) :
  (i < 256)%nat ->
  ((i + (256 - 256 / 2)) mod 256)%nat
  = Z.to_nat ((Z.of_nat i - 128) mod 256).
Proof.
  intros Hi. change (256 - 256 / 2)%nat with 128%nat.
  destruct (le_lt_dec 128 i) as [Hge|Hlt].
  - rewrite <- (Nat.mod_unique (i + 128) 256 1 (i - 128)) by lia.
    rewrite <- (Z.mod_unique_pos (Z.of_nat i - 128) 256 0
                                 (Z.of_nat i - 128)) by lia.
    lia.
  - rewrite <- (Nat.mod_unique (i + 128) 256 0 (i + 128)) by lia.
    rewrite <- (Z.mod_unique_pos (Z.of_nat i - 128) 256 (-1)
                                 (Z.of_nat i + 128)) by lia.
    lia.
Qed.

Lemma shape_fft2 (g : list (list R)) (h w : nat) :
  shape g = (h, w) -> (0 < h)%nat -> shape (fft2 g) = (h, w).
Proof.
  intros Hg Hh. unfold fft2. rewrite Hg. apply shape_tabulate2. exact Hh.
Qed.

(** The spectrum the program builds is the centred log-magnitude of the
    transform. *)
Lemma log_spectrum_centred (g : list (list Z)) :
  shape g = (256, 256)%nat ->
  log_spectrum g = log_magnitude (fft2 (map2d IZR g)).
Proof.
  intros Hg. unfold log_spectrum, log_magnitude. cbv zeta.
  assert (HF : shape (fft2 (map2d IZR g)) = (256, 256)%nat).
  { apply shape_fft2; [|lia]. rewrite shape_map2d. exact Hg. }
  generalize dependent (fft2 (map2d IZR g)). intros F HF.
  unfold fftshift. rewrite HF. rewrite !map2d_tabulate2.
  apply tabulate2_ext. intros y x Hy Hx.
  unfold log1p, centred. rewrite !shift_index by assumption. reflexivity.
Qed.

(** The radii the program builds are the distances from the centre. *)
Lemma radius_distances : radius 256 256 = distances.
Proof.
  unfold radius, distances. cbv zeta.
  change (Z.of_nat (256 / 2)) with 128%Z.
  apply tabulate2_ext. intros y x _ _. unfold distance. f_equal.
  rewrite plus_IZR, !Z.pow_2_r, !mult_IZR, !minus_IZR, <- !INR_IZR_INZ.
  ring.
Qed.

(** The largest distance is that of the corner [(0, 0)]. *)
Lemma distances_max :
  In (sqrt 32768) (ravel distances)
  /\ Forall (fun v => v <= sqrt 32768) (ravel distances).
Proof.
  unfold distances. split.
  - replace (sqrt 32768) with (distance 0 0).
    + apply In_ravel_tabulate2; lia.
    + unfold distance. f_equal. simpl. ring.
  - apply Forall_ravel_tabulate2. intros y x Hy Hx. unfold distance.
    apply sqrt_le_1_alt.
    assert (Hx' : 0 <= INR x <= 256).
    { split; [apply pos_INR|]. replace 256 with (INR 256) by (simpl; lra).
      apply le_INR. lia. }
    assert (Hy' : 0 <= INR y <= 256).
    { split; [apply pos_INR|]. replace 256 with (INR 256) by (simpl; lra).
      apply le_INR. lia. }
    nra.
Qed.

(** The largest entry of an array is unique. *)
Lemma max_unique (l : list R) (a b : R) :
  In a l -> Forall (fun v => v <= a) l ->
  In b l -> Forall (fun v => v <= b) l -> a = b.
Proof.
  intros Ha Hla Hb Hlb. rewrite Forall_forall in Hla, Hlb.
  apply Rle_antisym.
  - apply Hlb, list_elem_of_In, Ha.
  - apply Hla, list_elem_of_In, Hb.
Qed.

(** The score as the specification states it, on the centred
    log-magnitude of the transform, the distances from the centre and the
    largest distance. *)
Lemma frequency_score_spec (img : image) :
  let F := fft2 (map2d IZR (resize_area (cvtColor_BGR2GRAY img) 256 256)) in
  forall (w : world) (l : loc),
    heap w !! l = Some (OImage img) ->
    run (frequency_score l) w
    = (Ok (Finite (SpecFrequency.score (log_magnitude F) distances
                                       (sqrt 32768)),
           length (heap w)),
       World (files w)
             (heap w
              ++ [OArray (log_spectrum
                            (resize_area (cvtColor_BGR2GRAY img) 256 256))])
             (calls w ++ ["frequency_score"])).
Proof.
  intros F w l Hl.
  destruct (frequency_score_run img) as (r_max & Hin & Hall & Hrun).
  rewrite (Hrun w l Hl).
  rewrite radius_distances in Hin, Hall |- *.
  destruct distances_max as [Hin' Hall'].
  rewrite (max_unique _ _ _ Hin Hall Hin' Hall').
  rewrite (log_spectrum_centred (resize_area (cvtColor_BGR2GRAY img) 256 256))
    by (apply resize_area_shape; lia).
  reflexivity.
Qed.

(** C4.  With [F] the transform of the resized gray image, [mag_log] its
    log-magnitude shifted so that the zero frequency sits at the centre
    [(128, 128)], [r] the distance of every cell from that centre, and
    [r_max = sqrt 32768], the largest of these distances: every distance
    lies in exactly one of the bands low ([r <= 0.25 r_max]), mid
    ([0.25 r_max < r <= 0.6 r_max]) and high ([r > 0.6 r_max]); the band
    sums add up to the total; and the score returned is
    [clip(0.7 high_energy + 0.3 (balance / (balance + 1)), 0, 1)] for the
    energies [band sum / (total + eps)] and
    [balance = (mid_energy + high_energy) / (low_energy + eps)]. *)
Theorem frequency_score_bands (w : world) (l : loc) (img : image) :
  heap w !! l = Some (OImage img) ->
  let F := fft2 (map2d IZR (resize_area (cvtColor_BGR2GRAY img) 256 256)) in
  let mag_log := log_magnitude F in
  let r := distances in
  let r_max := sqrt 32768 in
  (In r_max (ravel r) /\ Forall (fun v => v <= r_max) (ravel r))
  /\ (forall v : R,
        (in_low r_max v /\ ~ in_mid r_max v /\ ~ in_high r_max v)
        \/ (~ in_low r_max v /\ in_mid r_max v /\ ~ in_high r_max v)
        \/ (~ in_low r_max v /\ ~ in_mid r_max v /\ in_high r_max v))
  /\ band_sum (in_low r_max) mag_log r + band_sum (in_mid r_max) mag_log r
     + band_sum (in_high r_max) mag_log r = Rsum (ravel mag_log)
  /\ exists (out : loc) (w' : world),
       run (frequency_score l) w
       = (Ok (Finite (SpecFrequency.score mag_log r r_max), out), w').
Proof.
  intros Hl F mag_log r r_max.
  assert (Hmax : 0 <= r_max) by apply sqrt_pos.
  split; [exact distances_max|]. split; [|split].
  - intros v. apply bands_exclusive. exact Hmax.
  - unfold band_sum. apply band_sums_total; [exact Hmax|].
    unfold mag_log, F.
    rewrite <- (log_spectrum_centred
                  (resize_area (cvtColor_BGR2GRAY img) 256 256))
      by (apply resize_area_shape; lia).
    unfold r. rewrite <- radius_distances. apply log_spectrum_cells.
  - eexists _, _. apply frequency_score_spec. exact Hl.
Qed.

End FrequencyBands.

(** The bands of the spectrum of the 4x4 gray image. *)
Lemma frequency_score_bands_witness :
  exists (out : loc) (w' : world),
    run (frequency_score (cv := reference_cv) 0) (world_of gray4x4)
    = (Ok (Finite
            (SpecFrequency.score
               (SpecFrequency.log_magnitude
                  (fft2 (map2d IZR
                           (nearest_resize (cvtColor_BGR2GRAY gray4x4)
                                           256 256))))
               SpecFrequency.distances (sqrt 32768)), out), w').
Proof.
  destruct (frequency_score_bands (cv := reference_cv)
              (world_of gray4x4) 0%nat gray4x4 eq_refl)
    as (_ & _ & _ & out & w' & Hrun).
  exists out, w'. exact Hrun.
Defined.

(** ** [noise_score] *)

Section Noise.
Local Open Scope R_scope.

(** Scaling an 8-bit value to [[0, 1]] and back, both in [float32], gives
    the value: checked on all 256 of them. *)
Lemma uint8_round_trip_all :
  forallb (fun v => Float32.to_uint8
                      (Float32.mul (Float32.div (Float32.of_uint8 v) 255) 255)
                    =? v)%Z
          (map Z.of_nat (seq 0 256)) = true.
Proof. vm_compute. reflexivity. Qed.

Lemma uint8_round_trip (v : Z) :
  (0 <= v <= 255)%Z ->
  Float32.to_uint8 (Float32.mul (Float32.div (Float32.of_uint8 v) 255) 255)
  = v.
Proof.
  intros Hv. pose proof uint8_round_trip_all as Hall.
  rewrite forallb_forall in Hall. apply Z.eqb_eq, Hall.
  apply in_map_iff. exists (Z.to_nat v). split; [lia|].
  apply in_seq. lia.
Qed.

Lemma to_uint8_scaled (g : list (list Z)) :
  Forall (Forall (fun v => (0 <= v <= 255)%Z)) g ->
  to_uint8 (scaled32 g) = g.
Proof.
  intros Hg. unfold to_uint8, scaled32, map2d. rewrite map_map.
  induction Hg as [|row g Hrow _ IH]; simpl; [reflexivity|].
  rewrite IH. f_equal. rewrite map_map.
  induction Hrow as [|v row Hv _ IHrow]; simpl; [reflexivity|].
  rewrite IHrow, (uint8_round_trip v Hv). reflexivity.
Qed.

(** The gray value of a pixel of bytes is a byte. *)
Lemma gray_of_pixel_u8 (p : pixel) :
  pixel_ok p = true -> (0 <= gray_of_pixel p <= 255)%Z.
Proof.
  destruct p as [[b g] r]. unfold pixel_ok, is_u8, gray_of_pixel.
  intros H. apply andb_prop in H as [H Hr]. apply andb_prop in H as [Hb Hg].
  apply andb_prop in Hb as [Hb0 Hb1]. apply andb_prop in Hg as [Hg0 Hg1].
  apply andb_prop in Hr as [Hr0 Hr1].
  apply Z.leb_le in Hb0, Hb1, Hg0, Hg1, Hr0, Hr1.
  rewrite Z.shiftr_div_pow2 by lia.
  change (Z.shiftl 1 14) with 16384%Z. change (2 ^ 15)%Z with 32768%Z.
  split.
  - apply Z.div_pos; lia.
  - apply Z.lt_succ_r. apply Z.div_lt_upper_bound; lia.
Qed.

Lemma cvtColor_BGR2GRAY_u8 (img : image) :
  valid_image img = true ->
  Forall (Forall (fun v => (0 <= v <= 255)%Z)) (cvtColor_BGR2GRAY img).
Proof.
  unfold valid_image. intros Hv. apply andb_prop in Hv as [_ Hpix].
  rewrite forallb_forall in Hpix. unfold cvtColor_BGR2GRAY.
  apply Forall_map, Forall_forall. intros row Hrow. cbv beta.
  apply list_elem_of_In, Hpix in Hrow. rewrite forallb_forall in Hrow.
  apply Forall_map, Forall_forall. intros p Hp. cbv beta.
  apply gray_of_pixel_u8, Hrow, list_elem_of_In, Hp.
Qed.

(** The two ends of the histogram range, as [float32] sees them: one
    [float32] step outside [[-0.2, 0.2]]. *)
Lemma range32_values :
  Q2R range_first32 = - (13421773 / 67108864)
  /\ Q2R range_last32 = 13421773 / 67108864.
Proof.
  unfold range_first32, range_last32.
  replace (Float32.round (- (1 # 5))) with (- 13421773 # 67108864)%Q
    by (vm_compute; reflexivity).
  replace (Float32.round (1 # 5)) with (13421773 # 67108864)%Q
    by (vm_compute; reflexivity).
  unfold Q2R. simpl. split; lra.
Qed.

Lemma range32_bounds :
  Q2R range_first32 < -0.2 /\ 0.2 < Q2R range_last32
  /\ Q2R range_first32 < 0 < Q2R range_last32.
Proof. destruct range32_values as [-> ->]. repeat split; lra. Qed.

Lemma edge_eq (bins : nat) (lo hi : R) (i : nat) :
  (i <= bins)%nat ->
  edge bins lo hi i = lo + INR i * ((hi - lo) / INR bins).
Proof.
  intros Hi. unfold edge, bin_edges.
  rewrite (nth_indep _ 0 ((fun i => lo + INR i * ((hi - lo) / INR bins)) 0%nat))
    by (rewrite length_map, length_seq; lia).
  rewrite (map_nth (fun i => lo + INR i * ((hi - lo) / INR bins))).
  rewrite seq_nth by lia. reflexivity.
Qed.

Lemma edge_range (bins : nat) (lo hi : R) (i : nat) :
  (0 < bins)%nat -> lo < hi -> (i <= bins)%nat ->
  lo <= edge bins lo hi i <= hi.
Proof.
  intros Hb Hlh Hi. rewrite edge_eq by exact Hi.
  assert (Hn : 0 < INR bins) by (apply lt_0_INR; exact Hb).
  assert (Hi' : 0 <= INR i <= INR bins).
  { split; [apply pos_INR | apply le_INR; exact Hi]. }
  assert (Hq : 0 <= INR i / INR bins <= 1).
  { split.
    - apply Rmult_le_pos; [lra|]. left. apply Rinv_0_lt_compat. exact Hn.
    - apply Rmult_le_reg_r with (INR bins); [exact Hn|].
      unfold Rdiv. rewrite Rmult_assoc, Rinv_l by lra. lra. }
  replace (INR i * ((hi - lo) / INR bins))
    with ((hi - lo) * (INR i / INR bins)) by (field; lra).
  split; nra.
Qed.

(** A sample that is not kept is in no bin. *)
Lemma in_bin_outside (bins : nat) (lo hi first last : R) (i : nat) (x : R) :
  x < first \/ last < x -> in_bin bins lo hi first last i x = false.
Proof.
  intros Hx. unfold in_bin, Rleb.
  destruct (Rle_dec first x); [|reflexivity].
  destruct (Rle_dec x last); [lra | reflexivity].
Qed.

Lemma histogram_counts_outside (a : list R) (bins : nat)
    (lo hi first last : R) :
  Forall (fun x => x < first \/ last < x) a ->
  Forall (eq 0%nat) (histogram_counts a bins lo hi first last).
Proof.
  intros Ha. unfold histogram_counts.
  apply Forall_map, Forall_forall. intros i _. simpl.
  induction Ha as [|x a Hx _ IH]; simpl; [reflexivity|].
  rewrite in_bin_outside by assumption. exact IH.
Qed.

(** The only zero denominator of the program has zero numerators: when no
    sample is counted, every count is zero. *)
Lemma histogram_zero_total (n : list nat) :
  fold_right Nat.add 0%nat n = 0%nat -> Forall (eq 0%nat) n.
Proof.
  induction n as [|k n IH]; simpl; intros H; constructor.
  - lia.
  - apply IH. lia.
Qed.

Lemma total_of_zeros (n : list nat) :
  Forall (eq 0%nat) n -> fold_right Nat.add 0%nat n = 0%nat.
Proof. induction 1 as [|k n <- _ IH]; simpl; [reflexivity | exact IH]. Qed.

Lemma true_divide_zero (a : np_float) : true_divide a (Finite 0) = NaN.
Proof.
  destruct a as [x|]; [|reflexivity]. unfold true_divide.
  destruct (Req_dec_T 0 0); [reflexivity | congruence].
Qed.

(** With no sample in range, [n / db / n.sum()] is [0/0] in every bin. *)
Lemma histogram_density_outside (a : list R) (bins : nat)
    (lo hi first last : R) :
  Forall (fun x => x < first \/ last < x) a ->
  histogram_density a bins lo hi first last = repeat NaN bins.
Proof.
  intros Ha. unfold histogram_density.
  pose proof (histogram_counts_outside a bins lo hi first last Ha) as Hz.
  rewrite (total_of_zeros _ Hz).
  assert (Hlen : length (histogram_counts a bins lo hi first last) = bins).
  { unfold histogram_counts. rewrite length_map, length_seq. reflexivity. }
  assert (Hdb : length (diff (bin_edges bins lo hi)) = bins).
  { unfold diff, bin_edges.
    rewrite length_zip_with, length_tl, length_map, length_seq. lia. }
  revert Hlen Hdb Hz.
  generalize (histogram_counts a bins lo hi first last) as n.
  generalize (diff (bin_edges bins lo hi)) as db.
  clear. induction bins as [|k IH]; intros db n Hn Hdb Hz.
  - destruct n; [reflexivity | discriminate].
  - destruct n as [|c n]; [discriminate|].
    destruct db as [|d db]; [discriminate|].
    inversion Hz as [|? ? Hc Hz']; subst.
    cbn [zip_with repeat]. change (INR 0) with 0.
    rewrite true_divide_zero. f_equal.
    apply IH; simpl in *; congruence || assumption.
Qed.

Lemma np_sum_NaN (l : list np_float) :
  l <> [] -> Forall (eq NaN) l -> np_sum l = NaN.
Proof.
  intros Hne Hall. destruct Hall as [|x l <- _]; [congruence|]. reflexivity.
Qed.

(** When no residual is kept the entropy is NaN. *)
Lemma hist_entropy_outside (residual : list (list R)) :
  Forall (fun x => x < Q2R range_first32 \/ Q2R range_last32 < x)
         (ravel residual) ->
  hist_entropy (residual_hist residual) = NaN.
Proof.
  intros Hout. unfold hist_entropy, residual_hist.
  rewrite histogram_density_outside by assumption.
  reflexivity.
Qed.

Lemma noise_score_run (w : world) (l : loc) (img : image) :
  heap w !! l = Some (OImage img) ->
  run (noise_score l) w
  = (Ok (noise_value img, length (heap w)),
     World (files w) (heap w ++ [OArray (noise_residual img)])
           (calls w ++ ["noise_score"])).
Proof.
  intros Hl. unfold noise_score.
  run_step.
  erewrite run_bind by (apply run_load_image; exact Hl).
  reflexivity.
Qed.

End Noise.

(** ** The histogram of [noise_score] is a density, not a distribution *)

Section Density.
Local Open Scope R_scope.

Lemma diff_map_seq (f : nat -> R) (n s : nat) :
  diff (map f (seq s (S n))) = map (fun i => f (S i) - f i) (seq s n).
Proof.
  revert s. induction n as [|n IH]; intros s.
  - reflexivity.
  - change (seq s (S (S n))) with (s :: seq (S s) (S n)).
    change (seq s (S n)) with (s :: seq (S s) n).
    rewrite !map_cons. unfold diff in *. cbn [tail].
    specialize (IH (S s)).
    change (seq (S s) (S n)) with (S s :: seq (S (S s)) n) in *.
    rewrite map_cons in *. cbn [zip_with tail] in *.
    f_equal. exact IH.
Qed.

(** Every bin has the width [(hi - lo) / bins]. *)
Lemma diff_bin_edges (bins : nat) (lo hi : R) :
  diff (bin_edges bins lo hi) = repeat ((hi - lo) / INR bins) bins.
Proof.
  unfold bin_edges. rewrite diff_map_seq.
  generalize ((hi - lo) / INR bins) as step. intros step.
  generalize 0%nat as s. induction bins as [|n IH]; intros s.
  - reflexivity.
  - cbn [seq map repeat]. f_equal; [|apply IH].
    rewrite S_INR. ring.
Qed.

Lemma np_sum_Finite (l : list R) : np_sum (map Finite l) = Finite (Rsum l).
Proof.
  induction l as [|x l IH]; [reflexivity|].
  cbn [map np_sum fold_right] in *. unfold np_sum in IH.
  rewrite IH. reflexivity.
Qed.

Lemma Rsum_INR (n : list nat) :
  Rsum (map INR n) = INR (fold_right Nat.add 0%nat n).
Proof.
  induction n as [|k n IH]; [reflexivity|].
  cbn [map Rsum fold_right] in *. unfold Rsum in IH.
  rewrite IH, plus_INR. reflexivity.
Qed.

Lemma Rsum_scale (c : R) (l : list R) :
  Rsum (map (fun x => x * c) l) = Rsum l * c.
Proof.
  induction l as [|x l IH]; cbn [map Rsum fold_right] in *.
  - ring.
  - unfold Rsum in IH. rewrite IH. ring.
Qed.

Lemma Rsum_shift (c : R) (l : list R) :
  Rsum (map (fun x => x + c) l) = Rsum l + INR (length l) * c.
Proof.
  induction l as [|x l IH].
  - simpl. ring.
  - change (length (x :: l)) with (S (length l)). rewrite S_INR.
    cbn [map Rsum fold_right] in *. unfold Rsum in IH. rewrite IH. ring.
Qed.

(** When some sample is counted, the densities are the counts over
    [width * total]. *)
Lemma histogram_density_finite (a : list R) (bins : nat)
    (lo hi first last : R) :
  (0 < bins)%nat -> lo < hi ->
  let n := histogram_counts a bins lo hi first last in
  let total := fold_right Nat.add 0%nat n in
  total <> 0%nat ->
  histogram_density a bins lo hi first last
  = map Finite
      (map (fun ni => INR ni * (INR bins / ((hi - lo) * INR total))) n).
Proof.
  intros Hb Hlh n total Htot. unfold histogram_density.
  fold n. fold total. rewrite diff_bin_edges.
  assert (Hlen : length n = bins).
  { unfold n, histogram_counts. rewrite length_map, length_seq. reflexivity. }
  assert (Hw : (hi - lo) / INR bins <> 0).
  { assert (0 < INR bins) by (apply lt_0_INR; exact Hb).
    apply Rgt_not_eq. apply Rdiv_lt_0_compat; lra. }
  assert (Ht : INR total <> 0) by (apply not_0_INR; exact Htot).
  assert (Hn : INR bins <> 0) by (apply not_0_INR; lia).
  replace (INR bins / ((hi - lo) * INR total))
    with (/ ((hi - lo) / INR bins) / INR total)
    by (field; repeat split; try assumption; lra).
  revert Hw. generalize ((hi - lo) / INR bins) as step. intros step Hw.
  revert Hlen. generalize n as m. generalize bins as k. clear Hb Hn.
  induction k as [|k IH]; intros [|c m] Hm; try discriminate.
  - reflexivity.
  - cbn [repeat zip_with map]. f_equal; [|apply IH; simpl in Hm; lia].
    unfold true_divide.
    destruct (Req_dec_T step 0); [contradiction|].
    destruct (Req_dec_T (INR total) 0); [contradiction|].
    f_equal. unfold Rdiv. ring.
Qed.

(** The bins of a density sum to [bins / (hi - lo)], whatever the samples. *)
Lemma histogram_density_sum (a : list R) (bins : nat)
    (lo hi first last : R) :
  (0 < bins)%nat -> lo < hi ->
  fold_right Nat.add 0%nat (histogram_counts a bins lo hi first last)
  <> 0%nat ->
  np_sum (histogram_density a bins lo hi first last)
  = Finite (INR bins / (hi - lo)).
Proof.
  intros Hb Hlh Htot.
  rewrite histogram_density_finite by assumption.
  rewrite np_sum_Finite. f_equal.
  rewrite <- (map_map INR (fun x => x * _)), Rsum_scale, Rsum_INR.
  pose proof (not_0_INR _ Htot) as Ht.
  field. split; [lra | exact Ht].
Qed.

(** [h ln h >= h - 1] for positive [h]. *)
Lemma xlnx_lower (h : R) : 0 < h -> h - 1 <= h * ln h.
Proof.
  intros Hh.
  assert (Hln : ln (/ h) <= / h - 1).
  { assert (Hi : 0 < / h) by (apply Rinv_0_lt_compat; exact Hh).
    pose proof (exp_ineq1_le (/ h - 1)) as He.
    replace (1 + (/ h - 1)) with (/ h) in He by ring.
    destruct He as [He|He].
    - left. rewrite <- (ln_exp (/ h - 1)). apply ln_increasing; assumption.
    - right. rewrite He at 1. apply ln_exp. }
  rewrite ln_Rinv in Hln by exact Hh.
  assert (Hm : h * (1 - / h) <= h * ln h).
  { apply Rmult_le_compat_l; lra. }
  replace (h * (1 - / h)) with (h - 1) in Hm by (field; lra).
  exact Hm.
Qed.

Lemma Rsum_xlnx_lower (l : list R) :
  Forall (fun h => 0 < h) l ->
  Rsum l - INR (length l) <= Rsum (map (fun h => h * ln h) l).
Proof.
  induction 1 as [|h l Hh _ IH].
  - simpl. lra.
  - change (length (h :: l)) with (S (length l)). rewrite S_INR.
    cbn [map Rsum fold_right] in *. unfold Rsum in IH.
    pose proof (xlnx_lower h Hh). lra.
Qed.

(** With some residual in range: the 64 floored bins sum to
    [160 + 64e-12], and the value of line 88 is finite and at most [-96]. *)
Lemma residual_hist_density (residual : list (list R)) :
  fold_right Nat.add 0%nat
    (histogram_counts (ravel residual) 64 (-0.2) 0.2 (Q2R range_first32) (Q2R range_last32)) <> 0%nat ->
  np_sum (residual_hist residual) = Finite (160 + 64 * 1e-12)
  /\ exists e : R,
       hist_entropy (residual_hist residual) = Finite e /\ e <= -96.
Proof.
  intros Htot. unfold residual_hist, hist_entropy.
  rewrite histogram_density_finite by (lia || lra || exact Htot).
  set (n := histogram_counts (ravel residual) 64 (-0.2) 0.2 (Q2R range_first32) (Q2R range_last32)) in *.
  set (total := fold_right Nat.add 0%nat n) in *.
  set (k := INR 64 / ((0.2 - -0.2) * INR total)).
  assert (Ht : 0 < INR total) by (apply lt_0_INR; lia).
  assert (H64 : INR 64 = 64) by (simpl; lra).
  assert (Hk : 0 < k).
  { unfold k. rewrite H64. apply Rdiv_lt_0_compat; nra. }
  set (ds := map (fun ni : nat => INR ni * k) n).
  set (hs := map (fun x => x + 1e-12) ds).
  assert (Hhist : map (fun p => np_add p (Finite 1e-12)) (map Finite ds)
                  = map Finite hs).
  { unfold hs. rewrite !map_map. reflexivity. }
  rewrite Hhist.
  assert (Hlen : length ds = 64%nat).
  { unfold ds, n, histogram_counts.
    rewrite !length_map, length_seq. reflexivity. }
  assert (Hsum : Rsum hs = 160 + 64 * 1e-12).
  { unfold hs. rewrite Rsum_shift, Hlen, H64. f_equal.
    unfold ds. rewrite <- (map_map INR (fun x => x * k)), Rsum_scale, Rsum_INR.
    change (fold_right Nat.add 0%nat n) with total.
    unfold k. rewrite H64.
    replace (0.2 - -0.2) with (2 / 5) by lra. field. lra. }
  split.
  - rewrite np_sum_Finite, Hsum. reflexivity.
  - exists (- Rsum (map (fun h => h * ln h) hs)). split.
    + rewrite map_map. cbn [lift1 np_mul lift2].
      rewrite <- (map_map (fun h => h * ln h) Finite), np_sum_Finite.
      reflexivity.
    + assert (Hpos : Forall (fun h => 0 < h) hs).
      { unfold hs, ds. rewrite map_map. apply Forall_map, Forall_forall.
        intros c _. simpl. pose proof (pos_INR c). nra. }
      pose proof (Rsum_xlnx_lower hs Hpos) as Hlow.
      assert (Hl : length hs = 64%nat)
        by (unfold hs; rewrite length_map; exact Hlen).
      rewrite Hl, Hsum, H64 in Hlow. lra.
Qed.

End Density.

(** ** [forensic_analyze] *)

Section Combined.
Context {cv : OpenCV}.
Local Open Scope R_scope.

Lemma frequency_value_run (w : world) (l : loc) (img : image) :
  heap w !! l = Some (OImage img) ->
  run (frequency_score l) w
  = (Ok (frequency_value img, length (heap w)),
     World (files w)
       (heap w
        ++ [OArray (log_spectrum
                      (resize_area (cvtColor_BGR2GRAY img) 256 256))])
       (calls w ++ ["frequency_score"])).
Proof.
  intros Hl. destruct (frequency_score_run img) as (m & Hin & Hall & Hrun).
  rewrite (Hrun w l Hl). unfold frequency_value.
  assert (Hne : ravel (radius 256 256) <> [])
    by (apply ravel_tabulate2_nonempty; lia).
  destruct (ravel (radius 256 256)) as [|x rest] eqn:Hr; [congruence|].
  cbn [hd tail].
  assert (Hm : m = fold_left Rmax rest x).
  { destruct (fold_left_Rmax_max rest x) as [Hin' Hall'].
    rewrite Forall_forall in Hall, Hall'.
    apply Rle_antisym.
    - apply Hall'. apply list_elem_of_In. exact Hin.
    - apply Hall. apply list_elem_of_In. exact Hin'. }
  rewrite Hm. reflexivity.
Qed.

Lemma lookup_image_after (h : list obj) (img : image) (extra : list obj) :
  (h ++ OImage img :: extra) !! length h = Some (OImage img).
Proof. rewrite lookup_app_r by lia. rewrite Nat.sub_diag. reflexivity. Qed.

(** The run of [forensic_analyze] on a path [cv2.imread] can decode, when
    the encoder accepts the image: the report is a function of the image
    and its decoded copy; five objects are allocated after the image; the
    four analyzers are entered in order. *)
Lemma forensic_analyze_run (w : world) (path : string) (img : image)
    (enc : encoded) :
  files w path = Some img ->
  imencode_jpg 85 img = Some enc ->
  run (forensic_analyze path) w
  = (Ok (forensic_report (frequency_value img) (noise_value img)
                         (compression_value img (imdecode enc))
                         (color_value img)),
     World (files w)
       (heap w
        ++ [OImage img;
            OArray (log_spectrum
                      (resize_area (cvtColor_BGR2GRAY img) 256 256));
            OArray (noise_residual img);
            OArray (recompression_error img (imdecode enc));
            OList (block_variances
                     (recompression_error img (imdecode enc)))])
       (calls w ++ ["frequency_score"; "noise_score"; "compression_score";
                    "color_corr_score"])).
Proof.
  intros Hf Henc. unfold forensic_analyze.
  erewrite run_bind.
  2:{ unfold run, imread. rewrite Hf. reflexivity. }
  cbv beta iota. erewrite run_bind.
  2:{ apply frequency_value_run. simpl. apply lookup_image_after. }
  cbv beta iota. erewrite run_bind.
  2:{ apply noise_score_run. simpl. rewrite <- app_assoc.
      apply lookup_image_after. }
  cbv beta iota. erewrite run_bind.
  2:{ apply (compression_score_run _ _ img enc); [|exact Henc].
      simpl. rewrite <- !app_assoc. apply lookup_image_after. }
  cbv beta iota zeta. erewrite run_bind.
  2:{ apply color_corr_score_run. simpl. rewrite <- !app_assoc.
      apply lookup_image_after. }
  cbv zeta. unfold run, mret, M_ret. simpl files. simpl heap. simpl calls.
  rewrite <- !app_assoc. reflexivity.
Qed.

(** The run on a decodable image the encoder refuses: the first two
    analyzers return, the third raises [cv2.error], the fourth is not
    entered, and there is no report. *)
Lemma forensic_analyze_raises (w : world) (path : string) (img : image) :
  files w path = Some img ->
  imencode_jpg 85 img = None ->
  run (forensic_analyze path) w
  = (Raise (cv2_error "imdecode_: !buf.empty()"),
     World (files w)
       (heap w
        ++ [OImage img;
            OArray (log_spectrum
                      (resize_area (cvtColor_BGR2GRAY img) 256 256));
            OArray (noise_residual img)])
       (calls w ++ ["frequency_score"; "noise_score";
                    "compression_score"])).
Proof.
  intros Hf Henc. unfold forensic_analyze.
  erewrite run_bind.
  2:{ unfold run, imread. rewrite Hf. reflexivity. }
  cbv beta iota. erewrite run_bind.
  2:{ apply frequency_value_run. simpl. apply lookup_image_after. }
  cbv beta iota. erewrite run_bind.
  2:{ apply noise_score_run. simpl. rewrite <- app_assoc.
      apply lookup_image_after. }
  cbv beta iota. erewrite run_bind_raise.
  2:{ apply (compression_score_raises _ _ img); [|exact Henc].
      simpl. rewrite <- !app_assoc. apply lookup_image_after. }
  simpl files. simpl heap. simpl calls.
  rewrite <- !app_assoc. reflexivity.
Qed.

Lemma forensic_analyze_undecodable (w : world) (path : string) :
  files w path = None ->
  run (forensic_analyze path) w
  = (Raise (ValueError "Cannot read image for forensic analysis."), w).
Proof.
  intros Hf. unfold forensic_analyze.
  erewrite run_bind.
  2:{ unfold run, imread. rewrite Hf. reflexivity. }
  reflexivity.
Qed.

End Combined.

(** ** The test images *)

Section Images.
Local Open Scope R_scope.

(** Every residual of [checker4x4] is [1] or [-1], also in [float32]. *)
Lemma checker4x4_residual32 :
  residual32 checker4x4
  = map (map (fun s : bool =>
                if s then (8388608 # 8388608)%Q else (-8388608 # 8388608)%Q))
      [[false; true; false; true]; [true; true; false; false];
       [false; false; true; true]; [true; false; true; false]].
Proof. vm_compute. reflexivity. Qed.

Lemma checker4x4_residual_outside :
  Forall (fun x => x < Q2R range_first32 \/ Q2R range_last32 < x)
         (ravel (noise_residual checker4x4)).
Proof.
  unfold noise_residual. rewrite checker4x4_residual32.
  destruct range32_values as [-> ->].
  cbv [map2d map ravel concat app]. unfold Q2R. simpl.
  repeat (constructor; [first [left; lra | right; lra]|]).
  constructor.
Qed.

Lemma noise_value_checker4x4 : noise_value checker4x4 = NaN.
Proof.
  unfold noise_value.
  rewrite hist_entropy_outside by exact checker4x4_residual_outside.
  reflexivity.
Qed.

Lemma in_le_total (k : nat) (n : list nat) :
  In k n -> (k <= fold_right Nat.add 0%nat n)%nat.
Proof.
  induction n as [|c n IH]; simpl; [tauto|].
  intros [->|Hin]; [lia|]. specialize (IH Hin). lia.
Qed.

(** A sample inside a bin makes the total count positive. *)
Lemma histogram_total_pos (a : list R) (bins : nat) (lo hi first last : R)
    (i : nat) (x : R) :
  (i < bins)%nat -> In x a -> in_bin bins lo hi first last i x = true ->
  fold_right Nat.add 0%nat (histogram_counts a bins lo hi first last)
  <> 0%nat.
Proof.
  intros Hi Hx Hin.
  set (F := in_bin bins lo hi first last i).
  assert (Hc : (1 <= length (List.filter F a))%nat).
  { assert (In x (List.filter F a))
      by (apply filter_In; split; assumption).
    destruct (List.filter F a); simpl in *; [tauto | lia]. }
  pose proof (in_le_total (length (List.filter F a))
                (histogram_counts a bins lo hi first last)) as Hle.
  unfold histogram_counts in Hle at 1.
  rewrite in_map_iff in Hle.
  assert (Hle' := Hle (ex_intro _ i (conj eq_refl
                         (proj2 (in_seq bins 0 i) ltac:(lia))))).
  lia.
Qed.

(** A residual of 0 falls in bin 32. *)
Lemma in_bin_32_zero (x : R) :
  x = 0 ->
  in_bin 64 (-0.2) 0.2 (Q2R range_first32) (Q2R range_last32) 32 x = true.
Proof.
  intros ->. unfold in_bin. rewrite !edge_eq by lia.
  destruct range32_bounds as (_ & _ & Hf & Hl).
  replace (INR 32) with 32 by (simpl; lra).
  replace (INR 33) with 33 by (simpl; lra).
  replace (INR 64) with 64 by (simpl; lra).
  unfold Rleb, Rltb.
  destruct (Rle_dec _ 0); [|lra]. destruct (Rle_dec 0 _); [|lra].
  destruct (Rle_dec _ 0); [|lra]. destruct (Rlt_dec 0 _); [|lra].
  reflexivity.
Qed.

Lemma Q2R_zero : Q2R 0 = 0.
Proof. unfold Q2R. simpl. lra. Qed.

(** The residual of [gray4x4] is zero everywhere. *)
Lemma gray4x4_residual32 : residual32 gray4x4 = repeat (repeat 0%Q 4) 4.
Proof. vm_compute. reflexivity. Qed.

Lemma gray4x4_residual_counted :
  fold_right Nat.add 0%nat
    (histogram_counts (ravel (noise_residual gray4x4)) 64 (-0.2) 0.2
                      (Q2R range_first32) (Q2R range_last32))
  <> 0%nat.
Proof.
  apply histogram_total_pos with (i := 32%nat) (x := Q2R 0).
  - lia.
  - unfold noise_residual. rewrite gray4x4_residual32.
    left. reflexivity.
  - apply in_bin_32_zero, Q2R_zero.
Qed.

End Images.

(** ** The guarded divisions

    The epsilons of [frequency_score] and the fall-back of [safe_corr] keep
    every denominator they guard away from zero. *)

Section Guards.
Context {cv : OpenCV}.
Local Open Scope R_scope.
Import SpecFrequency.

Lemma log1p_nonneg (x : R) : 0 <= x -> 0 <= log1p x.
Proof.
  intros [Hx|<-]; unfold log1p.
  - left. rewrite <- ln_1. apply ln_increasing; lra.
  - rewrite Rplus_0_r, ln_1. lra.
Qed.

(** The log-magnitude spectrum has no negative entry. *)
Lemma log_spectrum_nonneg (g : list (list Z)) :
  Forall (fun v => 0 <= v) (ravel (log_spectrum g)).
Proof.
  unfold log_spectrum. rewrite !ravel_map2d.
  apply Forall_map, Forall_map, Forall_forall. intros z _. simpl.
  apply log1p_nonneg, sqrt_pos.
Qed.

Lemma Rsum_nonneg (l : list R) : Forall (fun v => 0 <= v) l -> 0 <= Rsum l.
Proof.
  induction 1 as [|x l Hx _ IH]; cbn [Rsum fold_right] in *.
  - lra.
  - unfold Rsum in IH. lra.
Qed.

Lemma band_sum_nonneg (band : R -> Prop) `{!forall r, Decision (band r)}
    (mag_log r : list (list R)) :
  Forall (fun v => 0 <= v) (ravel mag_log) -> 0 <= band_sum band mag_log r.
Proof.
  intros Hpos. unfold band_sum. apply Rsum_nonneg.
  revert Hpos. generalize (ravel mag_log) as a. generalize (ravel r) as b.
  intros b a Hpos. revert b.
  induction Hpos as [|x a Hx _ IH]; intros [|v b]; try constructor.
  change (zip (x :: a) (v :: b)) with ((x, v) :: zip a b).
  rewrite filter_cons. destruct (decide (band (x, v).2)).
  - cbn [map fst]. constructor; [exact Hx | apply IH].
  - apply IH.
Qed.

(** The three denominators of [frequency_score] are positive. *)
Lemma frequency_denominators (g : list (list Z)) (r : list (list R))
    (r_max : R) :
  let mag_log := log_spectrum g in
  let total := Rsum (ravel mag_log) + 1e-8 in
  let low_energy := band_sum (in_low r_max) mag_log r / total in
  let mid_energy := band_sum (in_mid r_max) mag_log r / total in
  let high_energy := band_sum (in_high r_max) mag_log r / total in
  let balance := (mid_energy + high_energy) / (low_energy + 1e-8) in
  0 < total /\ 0 < low_energy + 1e-8 /\ 0 < balance + 1.
Proof.
  intros mag_log total low_energy mid_energy high_energy balance.
  pose proof (log_spectrum_nonneg g) as Hpos. fold mag_log in Hpos.
  pose proof (Rsum_nonneg _ Hpos) as Hsum.
  assert (Ht : 0 < total) by (unfold total; lra).
  assert (Hband : forall (band : R -> Prop) `{!forall v, Decision (band v)},
            0 <= band_sum band mag_log r / total).
  { intros band Hdec. apply Rmult_le_pos.
    - apply band_sum_nonneg. exact Hpos.
    - left. apply Rinv_0_lt_compat. exact Ht. }
  pose proof (Hband (in_low r_max) _) as Hlow.
  pose proof (Hband (in_mid r_max) _) as Hmid.
  pose proof (Hband (in_high r_max) _) as Hhigh.
  fold low_energy in Hlow. fold mid_energy in Hmid. fold high_energy in Hhigh.
  assert (Hl : 0 < low_energy + 1e-8) by lra.
  repeat split; try assumption.
  assert (0 <= balance); [|lra].
  unfold balance. apply Rmult_le_pos; [lra|].
  left. apply Rinv_0_lt_compat. exact Hl.
Qed.

Lemma zip_with_diag {A B : Type} (f : A -> A -> B) (l : list A) :
  zip_with f l l = map (fun x => f x x) l.
Proof. induction l as [|x l IH]; simpl; [|rewrite IH]; reflexivity. Qed.

(** A channel that passes the test of [safe_corr] has at least two samples
    and a positive sample deviation: [np.corrcoef] divides by neither zero. *)
Lemma corrcoef_denominators (a : list R) :
  ~ std a < 1e-6 -> 0 < INR (length a) - 1 /\ 0 < sqrt (cov a a).
Proof.
  intros Hstd. unfold std in Hstd.
  assert (Hvar : 0 < var a).
  { destruct (Rlt_le_dec 0 (var a)) as [H|H]; [exact H|].
    rewrite sqrt_neg_0 in Hstd by exact H. lra. }
  set (devs := map (fun x => (x - mean a) * (x - mean a)) a) in *.
  assert (Hdev : 0 <= Rsum devs).
  { apply Rsum_nonneg. unfold devs. apply Forall_map, Forall_forall.
    intros x _. apply (Rle_0_sqr (x - mean a)). }
  unfold var in Hvar. fold devs in Hvar. unfold mean in Hvar at 1.
  assert (Hlen : length devs = length a) by (unfold devs; apply length_map).
  rewrite Hlen in Hvar.
  assert (Hn : (2 <= length a)%nat).
  { destruct a as [|x [|y a]]; simpl; [| |lia].
    - simpl in Hvar. unfold Rdiv in Hvar. rewrite Rinv_0 in Hvar. lra.
    - exfalso. unfold devs, mean in Hvar. simpl in Hvar.
      replace ((x + 0) / 1) with x in Hvar by (field; lra).
      replace ((x - x) * (x - x) + 0) with 0 in Hvar by ring.
      lra. }
  assert (HN : 2 <= INR (length a)).
  { change 2 with (INR 2). apply le_INR. exact Hn. }
  assert (Hs : 0 < Rsum devs).
  { destruct Hdev as [H|H]; [exact H|]. rewrite <- H in Hvar.
    unfold Rdiv in Hvar. rewrite Rmult_0_l in Hvar. lra. }
  split; [lra|].
  apply sqrt_lt_R0. unfold cov. rewrite zip_with_diag. fold devs.
  apply Rdiv_lt_0_compat; lra.
Qed.

End Guards.

(** ** Scores outside the unit interval *)

Section ScoreRange.
Context {cv : OpenCV}.
Local Open Scope R_scope.

Lemma clamp_bounds (x : R) : 0 <= Spec.clamp x 0 1 <= 1.
Proof. rewrite <- Rclip_clamp by lra. apply Rclip_bounds. lra. Qed.

(** Three of the four scores are finite and in [[0, 1]] for every image
    and every decoded copy. *)
Lemma finite_scores_in_range (img dec : image) :
  (exists s : R, frequency_value img = Finite s /\ 0 <= s <= 1)
  /\ (exists s : R, compression_value img dec = Finite s /\ 0 <= s <= 1)
  /\ (exists s : R, color_value img = Finite s /\ 0 <= s <= 1).
Proof.
  split; [|split].
  - eexists. split; [reflexivity|]. apply clamp_bounds.
  - unfold compression_value. destruct (_ =? _)%nat.
    + exists 0.5. split; [reflexivity | lra].
    + eexists. split; [reflexivity|]. apply Rclip_bounds. lra.
  - eexists. split; [reflexivity|]. apply Rclip_bounds. lra.
Qed.

(** So is the noise score, as soon as one residual is counted. *)
Lemma noise_value_in_range (img : image) :
  fold_right Nat.add 0%nat
    (histogram_counts (ravel (noise_residual img)) 64 (-0.2) 0.2 (Q2R range_first32) (Q2R range_last32)) <> 0%nat ->
  exists s : R, noise_value img = Finite s /\ 0 <= s <= 1.
Proof.
  intros Htot. unfold noise_value.
  destruct (residual_hist_density (noise_residual img) Htot)
    as (_ & e & -> & _).
  cbv zeta. unfold true_divide.
  destruct (Req_dec_T 3 0) as [H3|_]; [lra|].
  eexists. split; [reflexivity|]. apply Rclip_bounds. lra.
Qed.

(** The aggregate of four finite scores is finite and in [[0, 1]]. *)
Lemma forensic_report_in_range (f n c s : R) :
  exists v : R,
    forensic_report (Finite f) (Finite n) (Finite c) (Finite s)
      !! "forensic_score" = Some (Finite v)
    /\ 0 <= v <= 1.
Proof. eexists. split; [reflexivity|]. apply Rclip_bounds. lra. Qed.

(** C2 fails on [checker4x4].  No residual of that image is in
    [[-0.2, 0.2]], the histogram counts nothing, its normalisation is [0/0],
    and the NaN reaches the report: the [noise] score and the
    [forensic_score] are NaN, for any path and any state. *)
Theorem forensic_analyze_returns_nan (w : world) (path : string) :
  exists (report : gmap string np_float) (w' : world),
    run (forensic_analyze path)
        (World (fun _ => Some checker4x4) (heap w) (calls w))
    = (Ok report, w')
    /\ report !! "noise" = Some NaN
    /\ report !! "forensic_score" = Some NaN.
Proof.
  destruct (imencode_jpg_encodes 85 checker4x4 eq_refl eq_refl)
    as [enc Henc].
  eexists _, _. split.
  - apply (forensic_analyze_run _ _ checker4x4 enc); [reflexivity|].
    exact Henc.
  - rewrite noise_value_checker4x4. unfold frequency_value.
    split; reflexivity.
Qed.

End ScoreRange.

(** ** The entropy statistic *)

Section Entropy.
Local Open Scope R_scope.

(** C3 fails on [gray4x4] (and on every image with a residual in range).
    The 64 floored bins sum to [160 + 64e-12], not to 1: they are densities
    per unit of residual, bin width [0.4 / 64].  What line 88 computes from
    them is at most [-96]; a Shannon entropy is never negative. *)
Theorem noise_histogram_is_density :
  np_sum (residual_hist (noise_residual gray4x4)) = Finite (160 + 64 * 1e-12)
  /\ exists e : R,
       hist_entropy (residual_hist (noise_residual gray4x4)) = Finite e
       /\ e <= -96.
Proof. apply residual_hist_density. exact gray4x4_residual_counted. Qed.

End Entropy.

(** ** Failure and frame *)

Section Pipeline.
Context {cv : OpenCV}.
Local Open Scope R_scope.

(** C7 fails on [strip1x65501].  [cv2.imread] decodes the image, the
    first two analyzers return, and [compression_score] raises [cv2.error]:
    an error other than the decode error reaches the caller, after two
    analyzers have run.  (On a path that cannot be decoded the run does end
    in the decode error with the state untouched:
    [forensic_analyze_undecodable].) *)
Theorem forensic_analyze_decoded_raises (w : world) (path : string) :
  valid_image strip1x65501 = true
  /\ run (forensic_analyze path)
         (World (fun _ => Some strip1x65501) (heap w) (calls w))
     = (Raise (cv2_error "imdecode_: !buf.empty()"),
        World (fun _ => Some strip1x65501)
          (heap w
           ++ [OImage strip1x65501;
               OArray (log_spectrum
                         (resize_area (cvtColor_BGR2GRAY strip1x65501)
                                      256 256));
               OArray (noise_residual strip1x65501)])
          (calls w ++ ["frequency_score"; "noise_score";
                       "compression_score"])).
Proof.
  assert (Hv : valid_image strip1x65501 = true) by (vm_compute; reflexivity).
  split; [exact Hv|].
  apply (forensic_analyze_raises
           (World (fun _ => Some strip1x65501) (heap w) (calls w)) path
           strip1x65501); [reflexivity|].
  apply imencode_jpg_too_large; [exact Hv|]. vm_compute. reflexivity.
Qed.

(** An analyzer only adds objects after the ones it found. *)
Lemma frame_extend (h extra : list obj) (k : loc) (o : obj) :
  h !! k = Some o -> (h ++ extra) !! k = Some o.
Proof. intros H. apply lookup_app_l_Some. exact H. Qed.

(** C9.  Each analyzer, run on an image object, leaves that object and every
    other object it found unchanged; so do the four run one after the other
    on the same image. *)
Theorem analyzers_preserve_image (w : world) (l : loc) (img : image) :
  heap w !! l = Some (OImage img) ->
  forall (k : loc) (o : obj),
    heap w !! k = Some o ->
    heap (run (frequency_score l) w).2 !! k = Some o
    /\ heap (run (noise_score l) w).2 !! k = Some o
    /\ heap (run (compression_score l) w).2 !! k = Some o
    /\ heap (run (color_corr_score l) w).2 !! k = Some o
    /\ heap (run (frequency_score l ≫= fun _ =>
                  noise_score l ≫= fun _ =>
                  compression_score l ≫= fun _ =>
                  color_corr_score l) w).2 !! k = Some o.
Proof.
  intros Hl k o Hk.
  rewrite (frequency_value_run w l img Hl), (noise_score_run w l img Hl),
    (color_corr_score_run w l img Hl).
  destruct (imencode_jpg 85 img) as [enc|] eqn:Henc.
  - rewrite (compression_score_run w l img enc Hl Henc).
    cbn [snd heap].
    repeat split; try (apply frame_extend; exact Hk); try exact Hk.
    erewrite run_bind.
    2:{ apply frequency_value_run. exact Hl. }
    erewrite run_bind.
    2:{ apply noise_score_run. cbn [heap]. apply frame_extend. exact Hl. }
    erewrite run_bind.
    2:{ apply (compression_score_run _ _ img enc); [|exact Henc].
        cbn [heap]. do 2 apply frame_extend. exact Hl. }
    erewrite color_corr_score_run.
    2:{ cbn [heap]. do 3 apply frame_extend. exact Hl. }
    cbn [snd heap]. do 3 apply frame_extend. exact Hk.
  - rewrite (compression_score_raises w l img Hl Henc).
    cbn [snd heap].
    repeat split; try (apply frame_extend; exact Hk); try exact Hk.
    erewrite run_bind.
    2:{ apply frequency_value_run. exact Hl. }
    erewrite run_bind.
    2:{ apply noise_score_run. cbn [heap]. apply frame_extend. exact Hl. }
    erewrite run_bind_raise.
    2:{ apply (compression_score_raises _ _ img); [|exact Henc].
        cbn [heap]. do 2 apply frame_extend. exact Hl. }
    cbn [snd heap]. do 2 apply frame_extend. exact Hk.
Qed.

End Pipeline.

(** The 4x4 image is still in place after the four analyzers. *)
Lemma analyzers_preserve_image_witness :
  heap (run (frequency_score (cv := reference_cv) 0 ≫= fun _ =>
             noise_score 0 ≫= fun _ =>
             compression_score (cv := reference_cv) 0 ≫= fun _ =>
             color_corr_score 0) (world_of gray4x4)).2 !! 0%nat
  = Some (OImage gray4x4).
Proof.
  apply (analyzers_preserve_image (cv := reference_cv)
           (world_of gray4x4) 0%nat gray4x4 eq_refl 0%nat (OImage gray4x4)
           eq_refl).
Defined.

(** * Further properties of the code *)

(** ** The hyperbolic tangent *)

Section Tanh.
Local Open Scope R_scope.

Lemma tanh_exp (x : R) :
  tanh x = (exp x - exp (- x)) / (exp x + exp (- x)).
Proof.
  unfold tanh, sinh, cosh.
  pose proof (exp_pos x). pose proof (exp_pos (- x)).
  field. lra.
Qed.

Lemma tanh_0 : tanh 0 = 0.
Proof. rewrite tanh_exp, Ropp_0, exp_0. lra. Qed.

Lemma tanh_bounds (x : R) : -1 < tanh x < 1.
Proof.
  rewrite tanh_exp.
  pose proof (exp_pos x) as Hp. pose proof (exp_pos (- x)) as Hn.
  assert (Hs : 0 < exp x + exp (- x)) by lra.
  split.
  - apply Rmult_lt_reg_r with (exp x + exp (- x)); [exact Hs|].
    unfold Rdiv. rewrite Rmult_assoc, Rinv_l by lra. lra.
  - apply Rmult_lt_reg_r with (exp x + exp (- x)); [exact Hs|].
    unfold Rdiv. rewrite Rmult_assoc, Rinv_l by lra. lra.
Qed.

Lemma tanh_nonneg (x : R) : 0 <= x -> 0 <= tanh x.
Proof.
  intros Hx. rewrite tanh_exp.
  pose proof (exp_pos x) as Hp. pose proof (exp_pos (- x)) as Hn.
  assert (Hle : exp (- x) <= exp x).
  { destruct Hx as [Hx|<-]; [left; apply exp_increasing; lra|].
    rewrite Ropp_0. lra. }
  apply Rmult_le_pos; [lra|]. left. apply Rinv_0_lt_compat. lra.
Qed.

Lemma tanh_neg (x : R) : x < 0 -> tanh x < 0.
Proof.
  intros Hx. rewrite tanh_exp.
  pose proof (exp_pos x) as Hp. pose proof (exp_pos (- x)) as Hn.
  assert (Hlt : exp x < exp (- x)) by (apply exp_increasing; lra).
  apply Rmult_lt_reg_r with (exp x + exp (- x)); [lra|].
  unfold Rdiv. rewrite Rmult_assoc, Rinv_l by lra. lra.
Qed.

End Tanh.

(** ** The aggregate as a weighted mean *)

Section Aggregate.
Local Open Scope R_scope.

Lemma Rclip_monotone (x y lo hi : R) :
  x <= y -> Rclip x lo hi <= Rclip y lo hi.
Proof.
  intros Hxy. unfold Rclip.
  apply Rle_min_compat_r. apply Rle_max_compat_r. exact Hxy.
Qed.

Lemma forensic_score_finite (f n c s : R) :
  forensic_report (Finite f) (Finite n) (Finite c) (Finite s)
    !! "forensic_score"
  = Some (Finite (Rclip (w_freq * f + w_noise * n + w_comp * c + w_color * s)
                        0 1)).
Proof. reflexivity. Qed.

(** X1.  In exact arithmetic, when the four sub-scores lie in [[0, 1]] the
    clip of line 148 does nothing: the forensic score is the weighted sum
    itself, and it lies between the smallest and the largest sub-score.
    (In binary64 the sum can fall a rounding step outside:
    [Binary64.aggregate_of_halves].) *)
Theorem forensic_score_is_weighted_mean (f n c s : R) :
  0 <= f <= 1 -> 0 <= n <= 1 -> 0 <= c <= 1 -> 0 <= s <= 1 ->
  forensic_report (Finite f) (Finite n) (Finite c) (Finite s)
    !! "forensic_score"
  = Some (Finite (0.35 * f + 0.3 * n + 0.2 * c + 0.15 * s))
  /\ Rmin f (Rmin n (Rmin c s))
     <= 0.35 * f + 0.3 * n + 0.2 * c + 0.15 * s
     <= Rmax f (Rmax n (Rmax c s)).
Proof.
  intros Hf Hn Hc Hs. split.
  - rewrite forensic_score_finite. unfold w_freq, w_noise, w_comp, w_color.
    rewrite Rclip_id by lra. reflexivity.
  - pose proof (Rmin_l f (Rmin n (Rmin c s))).
    pose proof (Rmin_r f (Rmin n (Rmin c s))).
    pose proof (Rmin_l n (Rmin c s)). pose proof (Rmin_r n (Rmin c s)).
    pose proof (Rmin_l c s). pose proof (Rmin_r c s).
    pose proof (Rmax_l f (Rmax n (Rmax c s))).
    pose proof (Rmax_r f (Rmax n (Rmax c s))).
    pose proof (Rmax_l n (Rmax c s)). pose proof (Rmax_r n (Rmax c s)).
    pose proof (Rmax_l c s). pose proof (Rmax_r c s).
    lra.
Qed.

(** X2.  The forensic score never decreases when a sub-score increases. *)
Theorem forensic_score_monotone (f n c s f' n' c' s' : R) :
  f <= f' -> n <= n' -> c <= c' -> s <= s' ->
  exists v v' : R,
    forensic_report (Finite f) (Finite n) (Finite c) (Finite s)
      !! "forensic_score" = Some (Finite v)
    /\ forensic_report (Finite f') (Finite n') (Finite c') (Finite s')
         !! "forensic_score" = Some (Finite v')
    /\ v <= v'.
Proof.
  intros Hf Hn Hc Hs. eexists _, _.
  split; [apply forensic_score_finite|]. split; [apply forensic_score_finite|].
  apply Rclip_monotone. unfold w_freq, w_noise, w_comp, w_color. lra.
Qed.

(** X3.  The forensic score is NaN exactly when one of the four sub-scores
    is: the clip does not repair a NaN, and nothing else produces one. *)
Theorem forensic_score_nan_iff (freq_s noise_s comp_s color_s : np_float) :
  forensic_report freq_s noise_s comp_s color_s !! "forensic_score" = Some NaN
  <-> freq_s = NaN \/ noise_s = NaN \/ comp_s = NaN \/ color_s = NaN.
Proof.
  destruct freq_s as [f|], noise_s as [n|], comp_s as [c|], color_s as [s|];
    (split;
     [ intros H;
       first [ rewrite forensic_score_finite in H; discriminate
             | tauto ]
     | intros H;
       first [ reflexivity
             | exfalso; destruct H as [H|[H|[H|H]]]; discriminate ] ]).
Qed.

End Aggregate.

Lemma forensic_score_is_weighted_mean_witness :
  forensic_report (Finite 1) (Finite 0) (Finite 0.5) (Finite 0.5)
    !! "forensic_score" = Some (Finite (0.35 * 1 + 0.3 * 0 + 0.2 * 0.5 + 0.15 * 0.5)%R).
Proof.
  apply (forensic_score_is_weighted_mean 1 0 0.5 0.5); lra.
Defined.

Lemma forensic_score_monotone_witness :
  exists v v' : R,
    forensic_report (Finite 0.2) (Finite 0.2) (Finite 0.2) (Finite 0.2)
      !! "forensic_score" = Some (Finite v)
    /\ forensic_report (Finite 0.9) (Finite 0.2) (Finite 0.2) (Finite 0.2)
         !! "forensic_score" = Some (Finite v')
    /\ (v <= v')%R.
Proof.
  apply (forensic_score_monotone 0.2 0.2 0.2 0.2 0.9 0.2 0.2 0.2); lra.
Defined.

(** ** The blocks of [compression_score] *)

Section Blocks.
Context {cv : OpenCV}.
Local Open Scope R_scope.

Lemma map_flat_map_map {A B C D : Type} (g : C -> D) (F : A -> B -> C)
    (xs : list B) (ys : list A) :
  map g (flat_map (fun y => map (F y) xs) ys)
  = flat_map (fun y => map (fun x => g (F y x)) xs) ys.
Proof.
  induction ys as [|y ys IH]; simpl.
  - reflexivity.
  - rewrite map_app, map_map, IH. reflexivity.
Qed.

Lemma block_variances_blocks (error : list (list R)) :
  block_variances error = map (fun b => var (ravel b)) (blocks error).
Proof.
  unfold block_variances, blocks. rewrite map_flat_map_map. reflexivity.
Qed.







Lemma var_zero (l : list R) : Forall (eq 0) l -> var l = 0.
Proof.
  intros Hz. unfold var.
  assert (Hm : mean l = 0).
  { unfold mean. rewrite (Rsum_constant 0) by exact Hz.
    unfold Rdiv. ring. }
  rewrite Hm. unfold mean. rewrite (Rsum_constant 0).
  - unfold Rdiv. ring.
  - apply Forall_map. eapply Forall_impl; [exact Hz|].
    intros x <-. cbv beta. ring.
Qed.

Lemma recompression_error_zero (img dec : image) :
  cvtColor_BGR2GRAY dec = cvtColor_BGR2GRAY img ->
  Forall (Forall (eq 0)) (recompression_error img dec).
Proof.
  intros Hsame. unfold recompression_error. rewrite Hsame. unfold zip2d.
  induction (map2d IZR (cvtColor_BGR2GRAY img)) as [|row g IH]; simpl.
  - constructor.
  - constructor; [|exact IH].
    induction row as [|v row IHrow]; simpl; constructor; [|exact IHrow].
    unfold Rminus. rewrite Rplus_opp_r, Rabs_R0. unfold Rdiv. ring.
Qed.

Lemma blocks_zero (error : list (list R)) :
  Forall (Forall (eq 0)) error ->
  Forall (fun b => Forall (eq 0) (ravel b)) (blocks error).
Proof.
  intros Hz. unfold blocks.
  apply Forall_flat_map, Forall_forall. intros y _.
  apply Forall_map, Forall_forall. intros x _. cbv beta.
  unfold ravel, slice2. apply Forall_concat, Forall_map.
  apply Forall_take, Forall_drop.
  eapply Forall_impl; [exact Hz|]. intros row Hrow. cbv beta.
  apply Forall_take, Forall_drop. exact Hrow.
Qed.

Lemma block_variances_nonempty (img dec : image) :
  map length dec = map length img ->
  (8 <= length img)%nat -> (8 <= length (hd [] img))%nat ->
  block_variances (recompression_error img dec) <> [].
Proof.
  intros Hdec Hh Hw Hnil. apply length_zero_iff_nil in Hnil.
  rewrite block_variances_length, (recompression_error_shape _ _ Hdec)
    in Hnil.
  unfold shape in Hnil. cbn [fst snd] in Hnil.
  apply Nat.eq_mul_0 in Hnil.
  rewrite <- !block_origins_length, !length_zero_iff_nil,
    !block_origins_nil in Hnil. lia.
Qed.

(** X5.  An image whose gray values survive the JPEG round trip unchanged,
    and that holds at least one block, scores exactly 0: the error map is
    zero, so is every block variance and so is their spread. *)
Theorem compression_score_unchanged (w : world) (l : loc) (img : image)
    (enc : encoded) :
  heap w !! l = Some (OImage img) ->
  (8 <= length img)%nat -> (8 <= length (hd [] img))%nat ->
  imencode_jpg 85 img = Some enc ->
  cvtColor_BGR2GRAY (imdecode enc) = cvtColor_BGR2GRAY img ->
  exists (out : loc) (w' : world),
    run (compression_score l) w = (Ok (Finite 0, out), w').
Proof.
  intros Hl Hh Hw Henc Hsame.
  pose proof (compression_score_run w l img enc Hl Henc) as Hrun.
  cbv zeta in Hrun.
  pose proof (block_variances_nonempty img _
                (jpeg_same_shape 85 img enc Henc) Hh Hw) as Hne.
  set (vs := block_variances (recompression_error img (imdecode enc))) in *.
  assert (Hvs : Forall (eq 0) vs).
  { unfold vs. rewrite block_variances_blocks. apply Forall_map.
    eapply Forall_impl;
      [exact (blocks_zero _ (recompression_error_zero img _ Hsame))|].
    intros b Hb. cbv beta. symmetry. apply var_zero. exact Hb. }
  destruct (length vs =? 0)%nat eqn:Hlen.
  - apply Nat.eqb_eq, length_zero_iff_nil in Hlen. contradiction.
  - rewrite (std_constant 0 vs Hne Hvs), Rmult_0_l, tanh_0 in Hrun.
    rewrite Rclip_id in Hrun by lra. eauto.
Qed.

(** X6.  When the image holds a block and JPEG can hold the image, the
    score is [tanh(50 * spread)] for [spread] the standard deviation of the
    variances of the 8x8 tiles of the error map, the list the loops leave
    behind: it is at least 0 and below 1, and the clip of line 116 changes
    nothing. *)
Theorem compression_score_below_one (w : world) (l : loc) (img : image) :
  heap w !! l = Some (OImage img) ->
  valid_image img = true ->
  jpeg_fits img = true ->
  (8 <= length img)%nat -> (8 <= length (hd [] img))%nat ->
  exists (enc : encoded) (out : loc) (w' : world),
    imencode_jpg 85 img = Some enc
    /\ let vs := map (fun b => var (ravel b))
                     (blocks (recompression_error img (imdecode enc))) in
       run (compression_score l) w
       = (Ok (Finite (tanh (std vs * 50)), out), w')
       /\ heap w' !! S out = Some (OList vs)
       /\ 0 <= tanh (std vs * 50) < 1.
Proof.
  intros Hl Hv Hfit Hh Hw.
  destruct (imencode_jpg_encodes 85 img Hv Hfit) as [enc Henc].
  pose proof (compression_score_run w l img enc Hl Henc) as Hrun.
  cbv zeta in Hrun.
  pose proof (block_variances_nonempty img _
                (jpeg_same_shape 85 img enc Henc) Hh Hw) as Hne.
  rewrite block_variances_blocks in Hrun, Hne.
  exists enc. eexists _, _. split; [exact Henc|]. cbv zeta.
  set (vs := map (fun b => var (ravel b))
                 (blocks (recompression_error img (imdecode enc)))) in *.
  assert (Hs : 0 <= std vs) by apply sqrt_pos.
  assert (Ht : 0 <= tanh (std vs * 50) < 1).
  { split; [apply tanh_nonneg; lra | apply tanh_bounds]. }
  destruct (length vs =? 0)%nat eqn:Hlen.
  - apply Nat.eqb_eq, length_zero_iff_nil in Hlen. contradiction.
  - rewrite Rclip_id in Hrun by lra.
    split; [exact Hrun|]. split; [|exact Ht].
    simpl. rewrite lookup_app_r by lia.
    replace (S (length (heap w)) - length (heap w))%nat with 1%nat by lia.
    reflexivity.
Qed.

End Blocks.


Lemma compression_score_unchanged_witness :
  exists (out : loc) (w' : world),
    run (compression_score (cv := reference_cv) 0) (world_of gray16x9)
    = (Ok (Finite 0%R, out), w').
Proof.
  apply (compression_score_unchanged (cv := reference_cv)
           (world_of gray16x9) 0%nat gray16x9 gray16x9 eq_refl);
    [simpl; lia | simpl; lia | reflexivity | reflexivity].
Defined.

Lemma compression_score_below_one_witness :
  exists (out : loc) (w' : world) (t : R),
    run (compression_score (cv := reference_cv) 0) (world_of gray16x9)
    = (Ok (Finite t, out), w')
    /\ (0 <= t < 1)%R.
Proof.
  destruct (compression_score_below_one (cv := reference_cv)
              (world_of gray16x9) 0%nat gray16x9 eq_refl eq_refl eq_refl)
    as (enc & out & w' & _ & Hrun & _ & Ht); [simpl; lia | simpl; lia|].
  eexists out, w', _. split; [exact Hrun | exact Ht].
Defined.

(** ** The colour correlations *)

Section ColorRange.
Local Open Scope R_scope.

Lemma safe_corr_bounds (a b : list Z) : -1 <= safe_corr a b <= 1.
Proof.
  unfold safe_corr. destruct (_ || _); [lra|].
  unfold corrcoef01. apply Rclip_bounds. lra.
Qed.

Lemma mean3 (x y z : R) : mean [x; y; z] = (x + y + z) / 3.
Proof. unfold mean. simpl. lra. Qed.

(** X7.  The colour score is the mean of the three pairwise correlations,
    each in [[-1, 1]], mapped linearly onto [[0, 1]]; the clip of line 130
    never changes it. *)
Theorem color_corr_score_is_mean (w : world) (l : loc) (img : image) :
  heap w !! l = Some (OImage img) ->
  let rgb := cvtColor_BGR2RGB img in
  let rg := safe_corr (channel (fun p => p.1.1) rgb)
                      (channel (fun p => p.1.2) rgb) in
  let rb := safe_corr (channel (fun p => p.1.1) rgb)
                      (channel (fun p => p.2) rgb) in
  let gb := safe_corr (channel (fun p => p.1.2) rgb)
                      (channel (fun p => p.2) rgb) in
  (-1 <= rg <= 1 /\ -1 <= rb <= 1 /\ -1 <= gb <= 1)
  /\ 0 <= ((rg + rb + gb) / 3 + 1) / 2 <= 1
  /\ exists w' : world,
       run (color_corr_score l) w
       = (Ok (Finite (((rg + rb + gb) / 3 + 1) / 2)), w').
Proof.
  intros Hl rgb rg rb gb.
  pose proof (safe_corr_bounds (channel (fun p => p.1.1) rgb)
                (channel (fun p => p.1.2) rgb)) as Hrg.
  pose proof (safe_corr_bounds (channel (fun p => p.1.1) rgb)
                (channel (fun p => p.2) rgb)) as Hrb.
  pose proof (safe_corr_bounds (channel (fun p => p.1.2) rgb)
                (channel (fun p => p.2) rgb)) as Hgb.
  fold rg in Hrg. fold rb in Hrb. fold gb in Hgb.
  split; [repeat split; lra|]. split; [lra|].
  eexists. rewrite (color_corr_score_run w l img Hl). cbv zeta.
  fold rgb. fold rg. fold rb. fold gb.
  rewrite mean3, Rclip_id by lra. reflexivity.
Qed.

(** A channel that passes the test of [safe_corr] correlates fully with
    itself. *)
Lemma safe_corr_self (a : list Z) :
  ~ std (map IZR a) < 1e-6 -> safe_corr a a = 1.
Proof.
  intros Hstd. unfold safe_corr, Rltb.
  destruct (Rlt_dec (std (map IZR a)) 1e-6) as [H|_]; [contradiction|].
  cbn [orb]. unfold corrcoef01.
  destruct (corrcoef_denominators (map IZR a) Hstd) as [_ Hs].
  set (c := cov (map IZR a) (map IZR a)) in *.
  assert (Hc : 0 < c).
  { destruct (Rlt_le_dec 0 c) as [H|H]; [exact H|].
    rewrite (sqrt_neg_0 c H) in Hs. lra. }
  replace (c / sqrt c / sqrt c) with 1.
  - apply Rclip_id. lra.
  - rewrite <- (sqrt_sqrt c) at 1 by lra. field. lra.
Qed.

Lemma channel_gray (k1 k2 : pixel -> Z) (img : image) :
  Forall (Forall (fun p => k1 p = k2 p)) img -> channel k1 img = channel k2 img.
Proof.
  intros Hg. unfold channel, map2d. f_equal.
  induction Hg as [|row img Hrow _ IH]; simpl; [reflexivity|].
  rewrite IH. f_equal.
  induction Hrow as [|p row Hp _ IHrow]; simpl; [reflexivity|].
  rewrite Hp, IHrow. reflexivity.
Qed.

Lemma channel_BGR2RGB (img : image) :
  channel (fun p => p.1.1) (cvtColor_BGR2RGB img) = channel (fun p => p.2) img
  /\ channel (fun p => p.1.2) (cvtColor_BGR2RGB img)
     = channel (fun p => p.1.2) img
  /\ channel (fun p => p.2) (cvtColor_BGR2RGB img)
     = channel (fun p => p.1.1) img.
Proof.
  unfold channel, map2d, cvtColor_BGR2RGB. rewrite !map_map.
  repeat split; f_equal; apply map_ext; intros row; rewrite map_map;
    apply map_ext; intros [[b g] r]; reflexivity.
Qed.

(** X8.  On a gray image (blue, green and red equal in every pixel) that is
    not flat the three channels are one array, every correlation is 1 and
    the score is exactly 1. *)
Theorem color_corr_score_gray (w : world) (l : loc) (img : image) :
  heap w !! l = Some (OImage img) ->
  Forall (Forall (fun p : pixel => p.1.1 = p.2 /\ p.1.2 = p.2)) img ->
  ~ std (map IZR (channel (fun p => p.2) img)) < 1e-6 ->
  exists w' : world, run (color_corr_score l) w = (Ok (Finite 1), w').
Proof.
  intros Hl Hgray Hstd.
  eexists. rewrite (color_corr_score_run w l img Hl). cbv zeta.
  destruct (channel_BGR2RGB img) as (-> & -> & ->).
  rewrite (channel_gray (fun p => p.1.1) (fun p => p.2) img).
  2:{ eapply Forall_impl; [exact Hgray|]. intros row Hrow.
      eapply Forall_impl; [exact Hrow|]. intros p [H _]. exact H. }
  rewrite (channel_gray (fun p => p.1.2) (fun p => p.2) img).
  2:{ eapply Forall_impl; [exact Hgray|]. intros row Hrow.
      eapply Forall_impl; [exact Hrow|]. intros p [_ H]. exact H. }
  rewrite (safe_corr_self _ Hstd), mean3.
  replace (((1 + 1 + 1) / 3 + 1) / 2) with 1 by lra.
  rewrite Rclip_id by lra. reflexivity.
Qed.

Lemma Rsum_zip_with_sym (f : R -> R -> R) (g : R -> R -> R) (a b : list R) :
  (forall x y, f x y = g y x) ->
  Rsum (zip_with f a b) = Rsum (zip_with g b a).
Proof.
  intros Hfg. revert b.
  induction a as [|x a IH]; intros [|y b]; simpl; try reflexivity.
  rewrite Hfg. f_equal. apply IH.
Qed.

Lemma cov_sym (a b : list R) : length a = length b -> cov a b = cov b a.
Proof.
  intros Hlen. unfold cov. rewrite Hlen. f_equal.
  apply Rsum_zip_with_sym. intros x y. cbv beta. ring.
Qed.

Lemma safe_corr_sym (a b : list Z) :
  length a = length b -> safe_corr a b = safe_corr b a.
Proof.
  intros Hlen. unfold safe_corr. rewrite orb_comm.
  destruct (_ || _); [reflexivity|].
  unfold corrcoef01. f_equal.
  rewrite (cov_sym (map IZR a) (map IZR b)) by (rewrite !length_map; exact Hlen).
  unfold Rdiv. ring.
Qed.

Lemma channel_length (k1 k2 : pixel -> Z) (img : image) :
  length (channel k1 img) = length (channel k2 img).
Proof.
  unfold channel, ravel, map2d.
  induction img as [|row img IH]; simpl; [reflexivity|].
  rewrite !length_app, !length_map, IH. reflexivity.
Qed.

(** X9.  The score does not depend on the order of the channels: an image
    handed over in R, G, B order scores as the same image in B, G, R
    order. *)
Theorem color_corr_score_channel_order (w1 w2 : world) (l1 l2 : loc)
    (img : image) :
  heap w1 !! l1 = Some (OImage img) ->
  heap w2 !! l2 = Some (OImage (cvtColor_BGR2RGB img)) ->
  exists score : np_float,
    (run (color_corr_score l1) w1).1 = Ok score
    /\ (run (color_corr_score l2) w2).1 = Ok score.
Proof.
  intros H1 H2. eexists.
  rewrite (color_corr_score_run w1 l1 img H1).
  rewrite (color_corr_score_run w2 l2 _ H2). cbv zeta. cbn [fst].
  split; [reflexivity|].
  destruct (channel_BGR2RGB (cvtColor_BGR2RGB img)) as (-> & -> & ->).
  set (r := channel (fun p => p.1.1) (cvtColor_BGR2RGB img)).
  set (g := channel (fun p => p.1.2) (cvtColor_BGR2RGB img)).
  set (b := channel (fun p => p.2) (cvtColor_BGR2RGB img)).
  rewrite (safe_corr_sym b g), (safe_corr_sym b r), (safe_corr_sym g r)
    by apply channel_length.
  rewrite !mean3. do 3 f_equal. lra.
Qed.

End ColorRange.

Lemma color_corr_score_is_mean_witness :
  exists (v : R) (w' : world),
    run (color_corr_score 0) (world_of gray4x4) = (Ok (Finite v), w')
    /\ (0 <= v <= 1)%R.
Proof.
  destruct (color_corr_score_is_mean (world_of gray4x4) 0%nat gray4x4 eq_refl)
    as (_ & Hrange & w' & Hrun).
  eexists _, w'. split; [exact Hrun | exact Hrange].
Defined.

Lemma gray1x2_std :
  ~ (std (map IZR (channel (fun p => p.2) gray1x2)) < 1e-6)%R.
Proof.
  unfold std, var, mean. simpl.
  match goal with |- ~ (sqrt ?x < _)%R => replace x with 1%R by lra end.
  rewrite sqrt_1. lra.
Qed.

Lemma color_corr_score_gray_witness :
  exists w' : world,
    run (color_corr_score 0) (world_of gray1x2) = (Ok (Finite 1%R), w').
Proof.
  apply (color_corr_score_gray (world_of gray1x2) 0%nat gray1x2 eq_refl).
  - repeat constructor.
  - exact gray1x2_std.
Defined.

Lemma color_corr_score_channel_order_witness :
  exists score : np_float,
    (run (color_corr_score 0) (world_of checker4x4)).1 = Ok score
    /\ (run (color_corr_score 0)
            (world_of (cvtColor_BGR2RGB checker4x4))).1 = Ok score.
Proof.
  apply (color_corr_score_channel_order (world_of checker4x4)
           (world_of (cvtColor_BGR2RGB checker4x4)) 0%nat 0%nat checker4x4);
    reflexivity.
Defined.

(** ** The noise score *)

Section NoiseRange.
Local Open Scope R_scope.

Lemma edge_last (bins : nat) (lo hi : R) :
  (0 < bins)%nat -> edge bins lo hi bins = hi.
Proof.
  intros Hb. rewrite edge_eq by lia.
  assert (INR bins <> 0) by (apply not_0_INR; lia).
  field. assumption.
Qed.

(** Every sample that is kept is in a bin. *)
Lemma in_bin_inside (bins : nat) (lo hi first last x : R) :
  (0 < bins)%nat -> first <= x <= last ->
  exists i : nat,
    (i < bins)%nat /\ in_bin bins lo hi first last i x = true.
Proof.
  intros Hb [Hf Hl].
  assert (Hfrom : forall d k : nat,
            (k + d = bins)%nat -> (k < bins)%nat ->
            k = 0%nat \/ edge bins lo hi k <= x ->
            exists i : nat,
              (i < bins)%nat /\ in_bin bins lo hi first last i x = true).
  { induction d as [|d IH]; intros k Hk Hlt Hedge; [lia|].
    assert (Hlow : ((k =? 0)%nat || Rleb (edge bins lo hi k) x) = true).
    { apply orb_true_intro. destruct Hedge as [->|Hedge];
        [left; reflexivity | right; apply Rleb_true; exact Hedge]. }
    assert (Hkeep : Rleb first x && Rleb x last = true).
    { apply andb_true_intro. split; apply Rleb_true; assumption. }
    destruct (Nat.eq_dec (S k) bins) as [Hlast|Hmore].
    - exists k. split; [exact Hlt|]. unfold in_bin.
      rewrite Hkeep, Hlow. apply orb_true_intro. left.
      apply Nat.eqb_eq. exact Hlast.
    - destruct (Rlt_le_dec x (edge bins lo hi (S k))) as [Hin|Hout].
      + exists k. split; [exact Hlt|]. unfold in_bin.
        rewrite Hkeep, Hlow. apply orb_true_intro. right.
        apply Rltb_true. exact Hin.
      + apply (IH (S k)); [lia | lia | right; exact Hout]. }
  apply (Hfrom bins 0%nat); [lia | exact Hb | left; reflexivity].
Qed.

(** The histogram counts nothing exactly when no sample is kept. *)
Lemma histogram_total_zero_iff (a : list R) (bins : nat)
    (lo hi first last : R) :
  (0 < bins)%nat ->
  fold_right Nat.add 0%nat (histogram_counts a bins lo hi first last) = 0%nat
  <-> Forall (fun x => x < first \/ last < x) a.
Proof.
  intros Hb. split.
  - intros Hz. apply Forall_forall. intros x Hx.
    destruct (Rlt_le_dec x first) as [Hl|Hl]; [left; exact Hl|].
    destruct (Rlt_le_dec last x) as [Hh|Hh]; [right; exact Hh|].
    exfalso.
    destruct (in_bin_inside bins lo hi first last x Hb (conj Hl Hh))
      as (i & Hi & Hin).
    apply (histogram_total_pos a bins lo hi first last i x Hi);
      try assumption.
    apply list_elem_of_In. exact Hx.
  - intros Hout. apply total_of_zeros.
    apply histogram_counts_outside; assumption.
Qed.

Lemma noise_value_nan_iff (img : image) :
  noise_value img = NaN
  <-> Forall (fun x => x < Q2R range_first32 \/ Q2R range_last32 < x)
             (ravel (noise_residual img)).
Proof.
  rewrite <- (histogram_total_zero_iff _ 64 (-0.2) 0.2) by lia.
  split.
  - intros Hnan.
    destruct (Nat.eq_dec
                (fold_right Nat.add 0%nat
                   (histogram_counts (ravel (noise_residual img)) 64
                      (-0.2) 0.2 (Q2R range_first32) (Q2R range_last32)))
                0%nat) as [Hz|Hnz]; [exact Hz|].
    destruct (noise_value_in_range img Hnz) as (s & Hs & _). congruence.
  - intros Hz. apply histogram_total_zero_iff in Hz; [|lia].
    unfold noise_value. rewrite hist_entropy_outside by exact Hz.
    reflexivity.
Qed.

(** The test of [kept32] is the comparison of the values. *)
Lemma kept32_outside (x : Q) :
  kept32 x = false
  <-> Q2R x < Q2R range_first32 \/ Q2R range_last32 < Q2R x.
Proof.
  unfold kept32. rewrite andb_false_iff. split.
  - intros [H|H]; [left | right]; apply Qlt_Rlt, Qnot_le_lt;
      intros Hle; apply Qle_bool_iff in Hle; congruence.
  - intros [H|H]; [left | right]; apply not_true_is_false;
      intros Hle; apply Qle_bool_iff, Qle_Rle in Hle; lra.
Qed.

Lemma residual32_outside (img : image) :
  forallb (fun x => negb (kept32 x)) (ravel (residual32 img)) = true
  <-> Forall (fun x => x < Q2R range_first32 \/ Q2R range_last32 < x)
             (ravel (noise_residual img)).
Proof.
  unfold noise_residual. rewrite ravel_map2d, Forall_map.
  rewrite forallb_forall, Forall_forall. split.
  - intros H x Hx. apply kept32_outside, negb_true_iff, H, list_elem_of_In, Hx.
  - intros H x Hx. apply negb_true_iff, kept32_outside, H, list_elem_of_In, Hx.
Qed.

(** X10.  [noise_score] returns NaN exactly when [np.histogram] keeps no
    residual: when every residual, a [float32] value, lies outside the
    range as the comparison in [float32] sees it, which reaches one
    [float32] step beyond [-0.2] and [0.2].  In every other case the score
    is a number in [[0, 1]]. *)
Theorem noise_score_nan_iff (w : world) (l : loc) (img : image) :
  heap w !! l = Some (OImage img) ->
  exists (score : np_float) (out : loc) (w' : world),
    run (noise_score l) w = (Ok (score, out), w')
    /\ (score = NaN
        <-> forallb (fun x => negb (kept32 x)) (ravel (residual32 img))
            = true)
    /\ (score = NaN
        <-> Forall (fun x => x < - (13421773 / 67108864)
                             \/ 13421773 / 67108864 < x)
                   (ravel (noise_residual img)))
    /\ (score <> NaN -> exists s : R, score = Finite s /\ 0 <= s <= 1).
Proof.
  intros Hl. eexists _, _, _. split; [apply noise_score_run; exact Hl|].
  pose proof (noise_value_nan_iff img) as Hiff.
  split; [rewrite residual32_outside; exact Hiff|].
  split.
  { destruct range32_values as [Hf Hlast].
    rewrite Hf, Hlast in Hiff. exact Hiff. }
  intros Hfin.
  destruct (Nat.eq_dec
              (fold_right Nat.add 0%nat
                 (histogram_counts (ravel (noise_residual img)) 64
                    (-0.2) 0.2 (Q2R range_first32) (Q2R range_last32)))
              0%nat) as [Hz|Hnz].
  - exfalso. apply Hfin, noise_value_nan_iff.
    apply histogram_total_zero_iff in Hz; [exact Hz | lia].
  - apply noise_value_in_range. exact Hnz.
Qed.

(** Far to the left the hyperbolic tangent is close to [-1]. *)
Lemma tanh_far (t : R) : t <= -32 -> tanh t <= -32 / 33.
Proof.
  intros Ht. rewrite tanh_exp.
  pose proof (exp_pos t) as Hp.
  pose proof (exp_ineq1_le (- t)) as Hn.
  assert (Hprod : exp t * exp (- t) = 1).
  { rewrite <- exp_plus, Rplus_opp_r. apply exp_0. }
  assert (Hsmall : exp t * 33 <= 1) by nra.
  apply Rmult_le_reg_r with (exp t + exp (- t)); [lra|].
  unfold Rdiv at 1. rewrite Rmult_assoc, Rinv_l by lra. lra.
Qed.

(** A finite noise score never reaches 0.61. *)
Lemma noise_value_cap (img : image) (s : R) :
  noise_value img = Finite s -> 0 <= s < 0.61.
Proof.
  intros Hs.
  destruct (Nat.eq_dec
              (fold_right Nat.add 0%nat
                 (histogram_counts (ravel (noise_residual img)) 64
                    (-0.2) 0.2 (Q2R range_first32) (Q2R range_last32)))
              0%nat) as [Hz|Hnz].
  - apply histogram_total_zero_iff in Hz; [|lia].
    apply noise_value_nan_iff in Hz. congruence.
  - revert Hs. unfold noise_value.
    destruct (residual_hist_density (noise_residual img) Hnz)
      as (_ & e & -> & He).
    cbv zeta. unfold true_divide.
    destruct (Req_dec_T 3 0) as [H3|_]; [lra|].
    cbn [lift1 np_mul np_add lift2 np_clip].
    intros [= <-].
    pose proof (tanh_bounds (std (ravel (noise_residual img)) * 10)) as Hr.
    pose proof (tanh_bounds
                  (std (ravel (laplacian_magnitude img)) / 255 * 5)) as Hlap.
    pose proof (tanh_far (e / 3) ltac:(lra)) as Hent.
    split; [apply Rclip_bounds; lra|].
    unfold Rclip.
    eapply Rle_lt_trans; [apply Rmin_l|].
    apply Rmax_lub_lt; lra.
Qed.

(** X11.  A finite noise score never reaches 0.61: the entropy term of
    line 88 is at most [-96], its [tanh] at most [-32/33], and it takes away
    at least [0.2 * 32/33] of the [0.8] the two deviations can add. *)
Theorem noise_score_cap (w : world) (l : loc) (img : image) :
  heap w !! l = Some (OImage img) ->
  exists (score : np_float) (out : loc) (w' : world),
    run (noise_score l) w = (Ok (score, out), w')
    /\ forall s : R, score = Finite s -> 0 <= s < 0.61.
Proof.
  intros Hl. eexists _, _, _. split; [apply noise_score_run; exact Hl|].
  apply noise_value_cap.
Qed.

End NoiseRange.

(** ** Flat images *)

Section Flat.
Local Open Scope R_scope.

Lemma repeat_of_constant {A : Type} (c : A) (l : list A) :
  Forall (eq c) l -> l = repeat c (length l).
Proof.
  induction 1 as [|x l <- _ IH]; simpl; [reflexivity|]. f_equal. exact IH.
Qed.

(** A flat image is a grid of one pixel. *)
Lemma flat_image_repeat (img : image) (p : pixel) :
  valid_image img = true -> Forall (Forall (eq p)) img ->
  exists h w : nat,
    (0 < h)%nat /\ (0 < w)%nat /\ img = repeat (repeat p w) h.
Proof.
  unfold valid_image. intros Hv Hflat.
  apply andb_prop in Hv as [Hv _]. apply andb_prop in Hv as [Hv Hrows].
  apply andb_prop in Hv as [Hh Hw]. apply Nat.ltb_lt in Hh, Hw.
  exists (length img), (length (hd [] img)).
  split; [exact Hh|]. split; [exact Hw|].
  apply repeat_of_constant.
  rewrite forallb_forall in Hrows. rewrite Forall_forall in Hflat.
  apply Forall_forall. intros row Hrow.
  pose proof (Hrows row (proj1 (list_elem_of_In _ _) Hrow)) as Hlen.
  apply Nat.eqb_eq in Hlen. rewrite <- Hlen.
  symmetry. apply repeat_of_constant, Hflat, Hrow.
Qed.

Lemma nth_repeat_lt {A : Type} (c d : A) (n i : nat) :
  (i < n)%nat -> nth i (repeat c n) d = c.
Proof.
  revert i. induction n as [|n IH]; intros [|i] Hi; simpl; try lia.
  - reflexivity.
  - apply IH. lia.
Qed.

Lemma map_seq_constant {A : Type} (f : nat -> A) (c : A) (s n : nat) :
  (forall i, (s <= i < s + n)%nat -> f i = c) -> map f (seq s n) = repeat c n.
Proof.
  revert s. induction n as [|n IH]; intros s Hf; simpl; [reflexivity|].
  rewrite Hf by lia. f_equal. apply IH. intros i Hi. apply Hf. lia.
Qed.

Lemma tabulate2_constant {A : Type} (h w : nat) (f : nat -> nat -> A) (c : A) :
  (forall y x, (y < h)%nat -> (x < w)%nat -> f y x = c) ->
  tabulate2 h w f = repeat (repeat c w) h.
Proof.
  intros Hf. unfold tabulate2. apply map_seq_constant. intros y Hy.
  apply map_seq_constant. intros x Hx. apply Hf; lia.
Qed.

Lemma shape_repeat {A : Type} (c : A) (h w : nat) :
  (0 < h)%nat -> shape (repeat (repeat c w) h) = (h, w).
Proof.
  intros Hh. unfold shape. rewrite repeat_length.
  destruct h as [|h]; [lia|]. simpl. rewrite repeat_length. reflexivity.
Qed.

Lemma at2_repeat {A : Type} (c d : A) (h w y x : nat) :
  (y < h)%nat -> (x < w)%nat -> at2 d (repeat (repeat c w) h) y x = c.
Proof.
  intros Hy Hx. unfold at2.
  rewrite (nth_repeat_lt _ _ h y Hy). apply nth_repeat_lt. exact Hx.
Qed.

Lemma border_replicate_lt (n : nat) (i : Z) :
  (0 < n)%nat -> (border_replicate n i < n)%nat.
Proof. intros Hn. unfold border_replicate. lia. Qed.

Lemma border_reflect_101_lt (n k : nat) (d : Z) :
  (k < n)%nat -> (-1 <= d <= 1)%Z ->
  (border_reflect_101 n (Z.of_nat k + d) < n)%nat.
Proof.
  intros Hk Hd. unfold border_reflect_101.
  destruct (n =? 1)%nat eqn:H1; [lia|]. apply Nat.eqb_neq in H1.
  destruct (Z.of_nat k + d <? 0)%Z eqn:Hneg.
  - apply Z.ltb_lt in Hneg. lia.
  - apply Z.ltb_ge in Hneg.
    destruct (Z.of_nat n <=? Z.of_nat k + d)%Z eqn:Hbig.
    + apply Z.leb_le in Hbig. lia.
    + apply Z.leb_gt in Hbig. lia.
Qed.

(** The 3x3 neighbourhood in a grid of one value holds nine of it,
    whichever way the border is filled in. *)
Lemma window3_constant (border : nat -> Z -> nat) (c : Z) (h w y x : nat) :
  (0 < h)%nat ->
  (forall d : Z, (-1 <= d <= 1)%Z -> (border h (Z.of_nat y + d)%Z < h)%nat) ->
  (forall d : Z, (-1 <= d <= 1)%Z -> (border w (Z.of_nat x + d)%Z < w)%nat) ->
  window3 border (repeat (repeat c w) h) y x = repeat c 9.
Proof.
  intros Hh Hy Hx. unfold window3. rewrite shape_repeat by exact Hh.
  cbn [flat_map map app repeat].
  rewrite !at2_repeat by (apply Hy || apply Hx; lia).
  reflexivity.
Qed.

Lemma medianBlur3_constant (c : Z) (h w : nat) :
  (0 < h)%nat -> (0 < w)%nat ->
  medianBlur3 (repeat (repeat c w) h) = repeat (repeat c w) h.
Proof.
  intros Hh Hw. unfold medianBlur3. rewrite shape_repeat by exact Hh.
  apply tabulate2_constant. intros y x Hy Hx.
  rewrite window3_constant;
    [| exact Hh | intros; apply border_replicate_lt; lia
     | intros; apply border_replicate_lt; lia].
  cbn [repeat sort fold_right].
  repeat (cbn [insert_sorted]; rewrite Z.leb_refl).
  reflexivity.
Qed.

Lemma Laplacian_constant (c : Z) (h w : nat) :
  (0 < h)%nat -> (0 < w)%nat ->
  Laplacian (repeat (repeat c w) h) = repeat (repeat 0%Z w) h.
Proof.
  intros Hh Hw. unfold Laplacian. rewrite shape_repeat by exact Hh.
  apply tabulate2_constant. intros y x Hy Hx.
  rewrite window3_constant;
    [| exact Hh | intros; apply border_reflect_101_lt; lia
     | intros; apply border_reflect_101_lt; lia].
  cbn [repeat]. lia.
Qed.

Lemma map2d_repeat {A B : Type} (f : A -> B) (c : A) (h w : nat) :
  map2d f (repeat (repeat c w) h) = repeat (repeat (f c) w) h.
Proof. unfold map2d. rewrite !map_repeat. reflexivity. Qed.

Lemma ravel_repeat_constant {A : Type} (c : A) (h w : nat) :
  Forall (eq c) (ravel (repeat (repeat c w) h)).
Proof.
  unfold ravel. apply Forall_concat, Forall_forall. intros row Hrow.
  apply list_elem_of_In, repeat_spec in Hrow. subst row.
  apply Forall_forall. intros v Hv.
  apply list_elem_of_In, repeat_spec in Hv. congruence.
Qed.

Lemma ravel_repeat_nonempty {A : Type} (c : A) (h w : nat) :
  (0 < h)%nat -> (0 < w)%nat -> ravel (repeat (repeat c w) h) <> [].
Proof.
  intros Hh Hw. destruct h as [|h]; [lia|]. destruct w as [|w]; [lia|].
  discriminate.
Qed.

(** A [float32] value minus itself is 0. *)
Lemma Float32_sub_diag (x : Q) : Float32.sub x x = 0%Q.
Proof.
  unfold Float32.sub, Float32.round.
  replace (Qnum (x - x)) with 0%Z; [reflexivity|].
  destruct x as [n d]. simpl. lia.
Qed.

(** On a flat image the median filter returns the image and the Laplacian
    vanishes: the residual and the Laplacian magnitude are zero
    everywhere. *)
Lemma noise_inputs_flat (img : image) (p : pixel) :
  valid_image img = true -> Forall (Forall (eq p)) img ->
  exists h w : nat,
    (0 < h)%nat /\ (0 < w)%nat
    /\ noise_residual img = repeat (repeat 0 w) h
    /\ laplacian_magnitude img = repeat (repeat 0 w) h.
Proof.
  intros Hv Hflat.
  pose proof (cvtColor_BGR2GRAY_u8 img Hv) as Hu8.
  destruct (flat_image_repeat img p Hv Hflat) as (h & w & Hh & Hw & ->).
  exists h, w. split; [exact Hh|]. split; [exact Hw|].
  unfold noise_residual, residual32, laplacian_magnitude. cbv zeta.
  rewrite (to_uint8_scaled _ Hu8). unfold cvtColor_BGR2GRAY.
  change (map (map gray_of_pixel) (repeat (repeat p w) h))
    with (map2d gray_of_pixel (repeat (repeat p w) h)).
  rewrite map2d_repeat, medianBlur3_constant, Laplacian_constant
    by assumption.
  unfold scaled32. rewrite !map2d_repeat. split.
  - unfold zip2d. rewrite zip_with_diag, map_repeat, zip_with_diag, map_repeat.
    rewrite Float32_sub_diag, map2d_repeat, Q2R_zero. reflexivity.
  - rewrite Rabs_R0. reflexivity.
Qed.

Lemma noise_value_flat (img : image) (p : pixel) :
  valid_image img = true -> Forall (Forall (eq p)) img ->
  noise_value img = Finite 0.
Proof.
  intros Hv Hflat.
  destruct (noise_inputs_flat img p Hv Hflat) as (h & k & Hh & Hk & Hres & Hlap).
  unfold noise_value. rewrite Hlap.
  assert (Htot : fold_right Nat.add 0%nat
                   (histogram_counts (ravel (noise_residual img)) 64
                      (-0.2) 0.2 (Q2R range_first32) (Q2R range_last32))
                 <> 0%nat).
  { apply histogram_total_pos with (i := 32%nat) (x := 0).
    - lia.
    - rewrite Hres. destruct h as [|h]; [lia|]. destruct k as [|k]; [lia|].
      left. reflexivity.
    - apply in_bin_32_zero. reflexivity. }
  destruct (residual_hist_density (noise_residual img) Htot)
    as (_ & e & -> & He).
  rewrite Hres.
  rewrite !(std_constant 0)
    by (apply ravel_repeat_nonempty || apply ravel_repeat_constant;
        assumption).
  cbv zeta. unfold true_divide.
  destruct (Req_dec_T 3 0) as [H3|_]; [lra|].
  cbn [lift1 np_mul np_add lift2 np_clip]. f_equal.
  replace (0 / 255 * 5) with 0 by lra. rewrite Rmult_0_l, tanh_0.
  pose proof (tanh_neg (e / 3) ltac:(lra)) as Hent.
  unfold Rclip. rewrite Rmax_right by lra. rewrite Rmin_left by lra.
  reflexivity.
Qed.

Lemma color_value_flat (img : image) (p : pixel) :
  valid_image img = true -> Forall (Forall (eq p)) img ->
  color_value img = Finite 0.5.
Proof.
  intros Hv Hflat. unfold color_value. cbv zeta.
  pose proof (cvtColor_BGR2RGB_flat img p Hflat) as Hrgb.
  destruct (cvtColor_BGR2RGB_valid img Hv) as (Hb & Hg & Hr).
  rewrite (safe_corr_flat_l _ (channel (fun q => q.1.2) _) _ Hr
             (channel_flat _ _ _ Hrgb)).
  rewrite (safe_corr_flat_l _ (channel (fun q => q.2) _) _ Hr
             (channel_flat _ _ _ Hrgb)).
  rewrite (safe_corr_flat_l _ (channel (fun q => q.2) _) _ Hg
             (channel_flat _ _ _ Hrgb)).
  f_equal. unfold mean, Rsum. simpl. rewrite Rclip_id; lra.
Qed.

(** X12.  A flat image has noise score exactly 0: both deviations vanish,
    the entropy term is negative, and the clip of line 94 lifts the negative
    sum to 0. *)
Theorem noise_score_flat (w : world) (l : loc) (img : image) (p : pixel) :
  heap w !! l = Some (OImage img) ->
  valid_image img = true ->
  Forall (Forall (eq p)) img ->
  exists (out : loc) (w' : world),
    run (noise_score l) w = (Ok (Finite 0, out), w').
Proof.
  intros Hl Hv Hflat. eexists _, _.
  rewrite (noise_score_run w l img Hl), (noise_value_flat img p Hv Hflat).
  reflexivity.
Qed.

End Flat.

Lemma noise_score_nan_iff_witness :
  exists (out : loc) (w' : world),
    run (noise_score 0) (world_of checker4x4) = (Ok (NaN, out), w').
Proof.
  destruct (noise_score_nan_iff (world_of checker4x4) 0%nat checker4x4 eq_refl)
    as (score & out & w' & Hrun & Hnan & _).
  exists out, w'. rewrite Hrun.
  rewrite (proj2 Hnan); [reflexivity|]. vm_compute. reflexivity.
Defined.

Lemma noise_score_cap_witness :
  exists (score : np_float) (out : loc) (w' : world),
    run (noise_score 0) (world_of gray4x4) = (Ok (score, out), w')
    /\ forall s : R, score = Finite s -> (0 <= s < 0.61)%R.
Proof.
  apply (noise_score_cap (world_of gray4x4) 0%nat gray4x4 eq_refl).
Defined.

Lemma noise_score_flat_witness :
  exists (out : loc) (w' : world),
    run (noise_score 0) (world_of gray4x4) = (Ok (Finite 0%R, out), w').
Proof.
  apply (noise_score_flat (world_of gray4x4) 0%nat gray4x4
           (128, 128, 128)%Z eq_refl eq_refl).
  repeat constructor.
Defined.

(** ** The frequency score *)

Section FrequencyRange.
Context {cv : OpenCV}.
Local Open Scope R_scope.
Import SpecFrequency.

Lemma ratio_below_one (b : R) : 0 <= b -> 0 <= b / (b + 1) < 1.
Proof.
  intros Hb. split.
  - apply Rmult_le_pos; [exact Hb|]. left. apply Rinv_0_lt_compat. lra.
  - apply Rmult_lt_reg_r with (b + 1); [lra|].
    unfold Rdiv. rewrite Rmult_assoc, Rinv_l by lra. lra.
Qed.

(** The sum that line 72 builds is in [[0, 1)], so the clip returns it. *)
Lemma frequency_raw_range (g : list (list Z)) (r_max : R) :
  0 <= r_max ->
  let mag_log := log_spectrum (resize_area g 256 256) in
  let r := radius 256 256 in
  let total := Rsum (ravel mag_log) + 1e-8 in
  let low_energy := band_sum (in_low r_max) mag_log r / total in
  let mid_energy := band_sum (in_mid r_max) mag_log r / total in
  let high_energy := band_sum (in_high r_max) mag_log r / total in
  let balance := (mid_energy + high_energy) / (low_energy + 1e-8) in
  let raw := 0.7 * high_energy + 0.3 * (balance / (balance + 1)) in
  score mag_log r r_max = raw
  /\ 0 <= high_energy < 1
  /\ 0 <= balance
  /\ 0 <= raw < 1.
Proof.
  intros Hmax mag_log r total low_energy mid_energy high_energy balance raw.
  pose proof (log_spectrum_nonneg (resize_area g 256 256)) as Hpos.
  fold mag_log in Hpos.
  pose proof (Rsum_nonneg _ Hpos) as Hsum.
  pose proof (band_sum_nonneg (in_low r_max) mag_log r Hpos) as Hlow.
  pose proof (band_sum_nonneg (in_mid r_max) mag_log r Hpos) as Hmid.
  pose proof (band_sum_nonneg (in_high r_max) mag_log r Hpos) as Hhigh.
  pose proof (band_sums_total r_max (ravel mag_log) (ravel r) Hmax
                (log_spectrum_cells g)) as Hsplit.
  change (band_sum (in_low r_max) mag_log r
          + band_sum (in_mid r_max) mag_log r
          + band_sum (in_high r_max) mag_log r = Rsum (ravel mag_log))
    in Hsplit.
  assert (Ht : 0 < total) by (unfold total; lra).
  assert (Hfrac : forall v : R, 0 <= v -> 0 <= v / total).
  { intros v Hv. apply Rmult_le_pos; [exact Hv|].
    left. apply Rinv_0_lt_compat. exact Ht. }
  assert (Hhe : 0 <= high_energy < 1).
  { split; [apply Hfrac; exact Hhigh|].
    apply Rmult_lt_reg_r with total; [exact Ht|].
    unfold high_energy, Rdiv. rewrite Rmult_assoc, Rinv_l by lra.
    unfold total. lra. }
  assert (Hb : 0 <= balance).
  { unfold balance. apply Rmult_le_pos.
    - pose proof (Hfrac _ Hmid). fold mid_energy in H. lra.
    - left. apply Rinv_0_lt_compat.
      pose proof (Hfrac _ Hlow). fold low_energy in H. lra. }
  pose proof (ratio_below_one balance Hb) as Hq.
  assert (Hraw : 0 <= raw < 1) by (unfold raw; lra).
  split; [|repeat split; lra].
  unfold score. cbv zeta. rewrite <- Rclip_clamp by lra.
  apply Rclip_id. lra.
Qed.

(** X13.  With [r_max = sqrt 32768], the largest radius of the grid, the
    frequency score is the unclipped sum
    [0.7 high_energy + 0.3 balance / (balance + 1)]: both terms are
    fractions below 1, the sum is in [[0, 1)], and the clip of line 73 never
    changes it. *)
Theorem frequency_score_below_one (w : world) (l : loc) (img : image) :
  heap w !! l = Some (OImage img) ->
  let mag_log :=
    log_spectrum (resize_area (cvtColor_BGR2GRAY img) 256 256) in
  let r := radius 256 256 in
  let r_max := sqrt 32768 in
  let total := Rsum (ravel mag_log) + 1e-8 in
  let low_energy := band_sum (in_low r_max) mag_log r / total in
  let mid_energy := band_sum (in_mid r_max) mag_log r / total in
  let high_energy := band_sum (in_high r_max) mag_log r / total in
  let balance := (mid_energy + high_energy) / (low_energy + 1e-8) in
  let raw := 0.7 * high_energy + 0.3 * (balance / (balance + 1)) in
  (In r_max (ravel r) /\ Forall (fun v => v <= r_max) (ravel r))
  /\ (exists (out : loc) (w' : world),
        run (frequency_score l) w = (Ok (Finite raw, out), w'))
  /\ 0 <= high_energy < 1
  /\ 0 <= balance
  /\ 0 <= raw < 1.
Proof.
  intros Hl mag_log r r_max.
  destruct (frequency_score_run img) as (m & Hin & Hall & Hrun).
  fold mag_log in Hrun. fold r in Hin, Hall, Hrun.
  assert (Hmaxr : In r_max (ravel r) /\ Forall (fun v => v <= r_max) (ravel r)).
  { unfold r. rewrite radius_distances. exact distances_max. }
  assert (Hm : m = r_max).
  { destruct Hmaxr as [Hin' Hall'].
    exact (max_unique _ _ _ Hin Hall Hin' Hall'). }
  subst m.
  assert (Hmax : 0 <= r_max) by apply sqrt_pos.
  destruct (frequency_raw_range (cvtColor_BGR2GRAY img) r_max Hmax)
    as (Hs & Hrest).
  fold mag_log r in Hs.
  cbv zeta in *.
  split; [exact Hmaxr|]. split; [|exact Hrest].
  eexists _, _. rewrite (Hrun w l Hl), Hs. reflexivity.
Qed.

End FrequencyRange.

Lemma frequency_score_below_one_witness :
  exists (s : R) (out : loc) (w' : world),
    run (frequency_score (cv := reference_cv) 0) (world_of gray4x4)
    = (Ok (Finite s, out), w')
    /\ (0 <= s < 1)%R.
Proof.
  destruct (frequency_score_below_one (cv := reference_cv)
              (world_of gray4x4) 0%nat gray4x4 eq_refl)
    as (_ & (out & w' & Hrun) & _ & _ & Hraw).
  eexists _, out, w'. split; [exact Hrun | exact Hraw].
Defined.

(** ** The report of [forensic_analyze] *)

Section Report.
Context {cv : OpenCV}.
Local Open Scope R_scope.

Lemma frequency_value_below_one (img : image) :
  exists f : R, frequency_value img = Finite f /\ 0 <= f < 1.
Proof.
  unfold frequency_value. cbv zeta.
  assert (Hne : ravel (radius 256 256) <> [])
    by (apply ravel_tabulate2_nonempty; lia).
  pose proof (radius_nonneg 256 256) as Hpos.
  destruct (ravel (radius 256 256)) as [|x rest] eqn:Hr; [congruence|].
  cbn [hd tail].
  destruct (fold_left_Rmax_max rest x) as [Hin _].
  assert (Hmax : 0 <= fold_left Rmax rest x).
  { rewrite Forall_forall in Hpos. apply Hpos, list_elem_of_In, Hin. }
  destruct (frequency_raw_range (cvtColor_BGR2GRAY img) _ Hmax)
    as (Hs & _ & _ & Hraw).
  eexists. split; [rewrite Hs; reflexivity | exact Hraw].
Qed.

Lemma compression_value_below_one (img dec : image) :
  exists c : R, compression_value img dec = Finite c /\ 0 <= c < 1.
Proof.
  unfold compression_value. cbv zeta. destruct (_ =? _)%nat.
  - exists 0.5. split; [reflexivity | lra].
  - set (t := tanh _).
    assert (Ht : 0 <= t < 1).
    { unfold t. split; [|apply tanh_bounds].
      apply tanh_nonneg. apply Rmult_le_pos; [apply sqrt_pos | lra]. }
    exists t. split; [rewrite Rclip_id by lra; reflexivity | exact Ht].
Qed.

Lemma forensic_report_lookups (a b c d : np_float) :
  forensic_report a b c d !! "frequency" = Some a
  /\ forensic_report a b c d !! "noise" = Some b
  /\ forensic_report a b c d !! "compression" = Some c
  /\ forensic_report a b c d !! "color_corr" = Some d.
Proof. repeat split; reflexivity. Qed.

Lemma forensic_report_keys (a b c d : np_float) :
  dom (forensic_report a b c d)
  = ({[ "forensic_score"; "frequency"; "noise"; "compression";
        "color_corr" ]} : gset string).
Proof.
  unfold forensic_report. cbv zeta.
  rewrite !dom_insert_L, dom_singleton_L. set_solver.
Qed.

(** X20.  On every decoded image with a side of more than 65500 pixels
    [forensic_analyze] raises [cv2.error] and returns no report:
    [frequency_score] and [noise_score] have run by then, and
    [color_corr_score] is never entered. *)
Theorem forensic_analyze_too_large (w : world) (path : string)
    (img : image) :
  files w path = Some img ->
  valid_image img = true ->
  jpeg_fits img = false ->
  exists w' : world,
    run (forensic_analyze path) w
    = (Raise (cv2_error "imdecode_: !buf.empty()"), w')
    /\ calls w' = calls w ++ ["frequency_score"; "noise_score";
                              "compression_score"].
Proof.
  intros Hf Hv Hfit. eexists. split.
  - apply (forensic_analyze_raises w path img Hf).
    apply imencode_jpg_too_large; assumption.
  - reflexivity.
Qed.

(** X14.  The report of a decoded image that JPEG can hold has exactly
    the five keys; its frequency, compression and colour entries are
    numbers in [[0, 1]]; and its forensic score is NaN exactly when its
    noise entry is, which is exactly when [np.histogram] keeps no residual
    of the image. *)
Theorem forensic_analyze_report (w : world) (path : string) (img : image) :
  files w path = Some img ->
  valid_image img = true ->
  jpeg_fits img = true ->
  exists (report : gmap string np_float) (w' : world),
    run (forensic_analyze path) w = (Ok report, w')
    /\ dom report
       = ({[ "forensic_score"; "frequency"; "noise"; "compression";
             "color_corr" ]} : gset string)
    /\ (exists f c s : R,
          report !! "frequency" = Some (Finite f) /\ 0 <= f < 1
          /\ report !! "compression" = Some (Finite c) /\ 0 <= c < 1
          /\ report !! "color_corr" = Some (Finite s) /\ 0 <= s <= 1)
    /\ (report !! "forensic_score" = Some NaN
        <-> report !! "noise" = Some NaN)
    /\ (report !! "noise" = Some NaN
        <-> forallb (fun x => negb (kept32 x)) (ravel (residual32 img))
            = true).
Proof.
  intros Hf Hv Hfit.
  destruct (imencode_jpg_encodes 85 img Hv Hfit) as [enc Henc].
  eexists _, _.
  split; [apply (forensic_analyze_run _ _ img enc); [exact Hf | exact Henc]|].
  split; [apply forensic_report_keys|].
  destruct (frequency_value_below_one img) as (f & Hfv & Hfr).
  destruct (compression_value_below_one img (imdecode enc))
    as (c & Hcv & Hcr).
  destruct (finite_scores_in_range img (imdecode enc))
    as (_ & _ & s & Hsv & Hsr).
  rewrite Hfv, Hcv, Hsv.
  destruct (forensic_report_lookups (Finite f) (noise_value img) (Finite c)
              (Finite s)) as (Hlf & Hln & Hlc & Hls).
  split; [exists f, c, s; repeat split; solve [assumption | lra]|].
  rewrite Hln. split.
  - destruct (noise_value img) as [n|]; split; intros H;
      solve [reflexivity | discriminate].
  - rewrite residual32_outside, <- noise_value_nan_iff. split; congruence.
Qed.

(** X15.  When JPEG can hold the decoded image there is a report, and a
    finite forensic score in it stays below 0.883: the weighted sum of a
    frequency and a compression score below 1, a colour score of at most 1
    and a noise score below 0.61. *)
Theorem forensic_analyze_cap (w : world) (path : string) (img : image) :
  files w path = Some img ->
  valid_image img = true ->
  jpeg_fits img = true ->
  exists (report : gmap string np_float) (w' : world),
    run (forensic_analyze path) w = (Ok report, w')
    /\ forall v : R,
         report !! "forensic_score" = Some (Finite v) -> 0 <= v < 0.883.
Proof.
  intros Hf Hv Hfit.
  destruct (imencode_jpg_encodes 85 img Hv Hfit) as [enc Henc].
  eexists _, _.
  split; [apply (forensic_analyze_run _ _ img enc); [exact Hf | exact Henc]|].
  destruct (frequency_value_below_one img) as (f & -> & Hfr).
  destruct (compression_value_below_one img (imdecode enc))
    as (c & -> & Hcr).
  destruct (finite_scores_in_range img (imdecode enc))
    as (_ & _ & s & -> & Hsr).
  intros v. destruct (noise_value img) as [n|] eqn:Hn; [|discriminate].
  pose proof (noise_value_cap img n Hn) as Hnr.
  change (Some (Finite (Rclip (w_freq * f + w_noise * n + w_comp * c
                               + w_color * s) 0 1)) = Some (Finite v)
          -> 0 <= v < 0.883).
  intros [= <-]. unfold w_freq, w_noise, w_comp, w_color.
  rewrite Rclip_id by lra. lra.
Qed.

(** X16.  For a flat image that JPEG can hold the report holds a noise
    score of 0 and a colour score of 0.5, and its forensic score is
    [0.35 frequency + 0.2 compression + 0.075]: at least 0.075 and below
    0.625, for every resampling and every codec of the interface. *)
Theorem forensic_analyze_flat (w : world) (path : string) (img : image)
    (p : pixel) :
  files w path = Some img ->
  valid_image img = true ->
  jpeg_fits img = true ->
  Forall (Forall (eq p)) img ->
  exists (report : gmap string np_float) (w' : world) (f c : R),
    run (forensic_analyze path) w = (Ok report, w')
    /\ report !! "frequency" = Some (Finite f)
    /\ report !! "noise" = Some (Finite 0)
    /\ report !! "compression" = Some (Finite c)
    /\ report !! "color_corr" = Some (Finite 0.5)
    /\ report !! "forensic_score"
       = Some (Finite (0.35 * f + 0.2 * c + 0.075))
    /\ 0.075 <= 0.35 * f + 0.2 * c + 0.075 < 0.625.
Proof.
  intros Hf Hv Hfit Hflat.
  destruct (imencode_jpg_encodes 85 img Hv Hfit) as [enc Henc].
  destruct (frequency_value_below_one img) as (f & Hfv & Hfr).
  destruct (compression_value_below_one img (imdecode enc))
    as (c & Hcv & Hcr).
  eexists _, _, f, c.
  split; [apply (forensic_analyze_run _ _ img enc); [exact Hf | exact Henc]|].
  rewrite Hfv, Hcv, (noise_value_flat img p Hv Hflat),
    (color_value_flat img p Hv Hflat).
  destruct (forensic_report_lookups (Finite f) (Finite 0) (Finite c)
              (Finite 0.5)) as (Hlf & Hln & Hlc & Hls).
  repeat split; try assumption; try lra.
  change (Some (Finite (Rclip (w_freq * f + w_noise * 0 + w_comp * c
                               + w_color * 0.5) 0 1))
          = Some (Finite (0.35 * f + 0.2 * c + 0.075))).
  unfold w_freq, w_noise, w_comp, w_color.
  rewrite Rclip_id by lra. do 2 f_equal. lra.
Qed.

End Report.

Lemma forensic_analyze_too_large_witness :
  exists w' : world,
    run (forensic_analyze (cv := reference_cv) "tall.png")
        (World (fun _ => Some strip65501x1) [] [])
    = (Raise (cv2_error "imdecode_: !buf.empty()"), w').
Proof.
  destruct (forensic_analyze_too_large (cv := reference_cv)
              (World (fun _ => Some strip65501x1) [] []) "tall.png"
              strip65501x1 eq_refl)
    as (w' & Hrun & _); [vm_compute; reflexivity..|].
  exists w'. exact Hrun.
Defined.

Lemma forensic_analyze_report_witness :
  exists (report : gmap string np_float) (w' : world),
    run (forensic_analyze (cv := reference_cv) "a.png")
        (World (fun _ => Some checker4x4) [] [])
    = (Ok report, w')
    /\ report !! "forensic_score" = Some NaN.
Proof.
  destruct (forensic_analyze_report (cv := reference_cv)
              (World (fun _ => Some checker4x4) [] []) "a.png" checker4x4
              eq_refl eq_refl eq_refl)
    as (report & w' & Hrun & _ & _ & Hscore & Hnoise).
  exists report, w'. split; [exact Hrun|].
  apply Hscore, Hnoise. vm_compute. reflexivity.
Defined.

Lemma forensic_analyze_flat_witness :
  exists (report : gmap string np_float) (w' : world),
    run (forensic_analyze (cv := reference_cv) "a.png")
        (World (fun _ => Some gray4x4) [] [])
    = (Ok report, w')
    /\ report !! "noise" = Some (Finite 0%R)
    /\ report !! "color_corr" = Some (Finite 0.5%R).
Proof.
  destruct (forensic_analyze_flat (cv := reference_cv)
              (World (fun _ => Some gray4x4) [] []) "a.png" gray4x4
              (128, 128, 128)%Z eq_refl eq_refl eq_refl)
    as (report & w' & f & c & Hrun & _ & Hnoise & _ & Hcolor & _).
  - repeat constructor.
  - exists report, w'. repeat split; assumption.
Defined.

Lemma forensic_analyze_cap_witness :
  exists (report : gmap string np_float) (w' : world),
    run (forensic_analyze (cv := reference_cv) "a.png")
        (World (fun _ => Some gray4x4) [] [])
    = (Ok report, w')
    /\ forall v : R,
         report !! "forensic_score" = Some (Finite v) -> (0 <= v < 0.883)%R.
Proof.
  apply (forensic_analyze_cap (cv := reference_cv)
           (World (fun _ => Some gray4x4) [] []) "a.png" gray4x4 eq_refl
           eq_refl eq_refl).
Defined.

(** ** [extract_metadata] *)

Section MetadataProofs.
Context {pil : Pillow}.

Lemma extract_metadata_run (path : string) (w w1 w2 : world)
    (image : pil_image) (exif_data : list (Z * exif_value)) :
  run (Image_open path) w = (Ok image, w1) ->
  run (getexif image) w1 = (Ok exif_data, w2) ->
  run (extract_metadata path) w = (Ok (metadata exif_data), w2).
Proof.
  intros Hopen Hexif. unfold extract_metadata, try_except, run.
  change ((Image_open path ≫= _) w)
    with (run (Image_open path ≫= fun image =>
               getexif image ≫= fun exif_data => mret (metadata exif_data)) w).
  erewrite run_bind by exact Hopen.
  erewrite run_bind by exact Hexif.
  reflexivity.
Qed.

Lemma extract_metadata_open_raises (path : string) (w w1 : world) (e : exn) :
  run (Image_open path) w = (Raise e, w1) ->
  run (extract_metadata path) w = (Ok ∅, w1).
Proof.
  intros Hopen. unfold extract_metadata, try_except, run.
  change ((Image_open path ≫= _) w)
    with (run (Image_open path ≫= fun image =>
               getexif image ≫= fun exif_data => mret (metadata exif_data)) w).
  erewrite run_bind_raise by exact Hopen. reflexivity.
Qed.

Lemma extract_metadata_getexif_raises (path : string) (w w1 w2 : world)
    (image : pil_image) (e : exn) :
  run (Image_open path) w = (Ok image, w1) ->
  run (getexif image) w1 = (Raise e, w2) ->
  run (extract_metadata path) w = (Ok ∅, w2).
Proof.
  intros Hopen Hexif. unfold extract_metadata, try_except, run.
  change ((Image_open path ≫= _) w)
    with (run (Image_open path ≫= fun image =>
               getexif image ≫= fun exif_data => mret (metadata exif_data)) w).
  erewrite run_bind by exact Hopen.
  erewrite run_bind_raise by exact Hexif. reflexivity.
Qed.

(** X17.  [extract_metadata] never raises.  When [Image.open] or
    [getexif] fails it returns the empty dict, which is also what it
    returns for an image without EXIF entries: the caller cannot tell the
    two apart. *)
Theorem extract_metadata_never_raises (path : string) (w : world) :
  (exists (result : gmap key exif_value) (w' : world),
     run (extract_metadata path) w = (Ok result, w'))
  /\ (forall (e : exn) (w1 : world),
        run (Image_open path) w = (Raise e, w1) ->
        run (extract_metadata path) w = (Ok ∅, w1))
  /\ (forall (image : pil_image) (w1 : world),
        run (Image_open path) w = (Ok image, w1) ->
        (forall (e : exn) (w2 : world),
           run (getexif image) w1 = (Raise e, w2) ->
           run (extract_metadata path) w = (Ok ∅, w2))
        /\ (forall w2 : world,
              run (getexif image) w1 = (Ok [], w2) ->
              run (extract_metadata path) w = (Ok ∅, w2))).
Proof.
  split; [|split].
  - destruct (run (Image_open path) w) as [[image|e] w1] eqn:Hopen.
    + destruct (run (getexif image) w1) as [[exif_data|e] w2] eqn:Hexif.
      * eexists _, _. apply (extract_metadata_run _ _ _ _ _ _ Hopen Hexif).
      * eexists _, _.
        apply (extract_metadata_getexif_raises _ _ _ _ _ _ Hopen Hexif).
    + eexists _, _. apply (extract_metadata_open_raises _ _ _ _ Hopen).
  - intros e w1. apply extract_metadata_open_raises.
  - intros image w1 Hopen. split.
    + intros e w2 Hexif.
      apply (extract_metadata_getexif_raises _ _ _ _ _ _ Hopen Hexif).
    + intros w2 Hexif. apply (extract_metadata_run _ _ _ _ _ _ Hopen Hexif).
Qed.

Lemma foldl_insert_dom (l : list (Z * exif_value))
    (acc : gmap key exif_value) :
  dom (foldl (fun m '(tag_id, value) => <[tag_of tag_id := value]> m) acc l)
  = dom acc ∪ list_to_set (keys_of l).
Proof.
  revert acc. induction l as [|[id v] l IH]; intros acc; simpl.
  - rewrite (right_id_L ∅ (∪)). reflexivity.
  - rewrite IH, dom_insert_L. unfold keys_of. simpl.
    rewrite (comm_L (∪) {[tag_of id]}), <- (assoc_L (∪)). reflexivity.
Qed.

Lemma foldl_insert_origin (l : list (Z * exif_value))
    (acc : gmap key exif_value) (k : key) (v : exif_value) :
  foldl (fun m '(tag_id, value) => <[tag_of tag_id := value]> m) acc l !! k
  = Some v ->
  acc !! k = Some v \/ exists id : Z, (id, v) ∈ l /\ tag_of id = k.
Proof.
  revert acc. induction l as [|[id0 v0] l IH]; intros acc; simpl.
  - intros H. left. exact H.
  - intros H. destruct (IH _ H) as [Hacc|(id & Hin & Hk)].
    + destruct (decide (tag_of id0 = k)) as [Heq|Hne].
      * rewrite <- Heq, lookup_insert_eq in Hacc. injection Hacc as <-.
        right. exists id0. split; [left | exact Heq].
      * rewrite lookup_insert_ne in Hacc by exact Hne. left. exact Hacc.
    + right. exists id. split; [right; exact Hin | exact Hk].
Qed.

Lemma foldl_insert_notin (l : list (Z * exif_value))
    (acc : gmap key exif_value) (k : key) :
  k ∉ keys_of l ->
  foldl (fun m '(tag_id, value) => <[tag_of tag_id := value]> m) acc l !! k
  = acc !! k.
Proof.
  revert acc. induction l as [|[id0 v0] l IH]; intros acc Hk; simpl.
  - reflexivity.
  - unfold keys_of in Hk. simpl in Hk. apply not_elem_of_cons in Hk as [Hne Hk].
    rewrite IH by exact Hk. apply lookup_insert_ne. congruence.
Qed.

Lemma foldl_insert_found (l : list (Z * exif_value))
    (acc : gmap key exif_value) (id : Z) (v : exif_value) :
  NoDup (keys_of l) -> (id, v) ∈ l ->
  foldl (fun m '(tag_id, value) => <[tag_of tag_id := value]> m) acc l
    !! tag_of id = Some v.
Proof.
  revert acc. induction l as [|[id0 v0] l IH]; intros acc Hnd Hin; simpl.
  - inversion Hin.
  - unfold keys_of in Hnd. simpl in Hnd. apply NoDup_cons in Hnd as [Hfresh Hnd].
    apply elem_of_cons in Hin as [Heq|Hin].
    + injection Heq as -> ->.
      rewrite foldl_insert_notin by exact Hfresh. apply lookup_insert_eq.
    + apply IH; assumption.
Qed.

(** X18.  For a file PIL can read, the keys of the result are the keys of
    the EXIF entries, a tag with a name in [ExifTags.TAGS] under that name
    and any other under its number; every value of the result is the value
    of an entry; and when no two entries share a key, every entry is in the
    result and the result has as many entries as the EXIF data. *)
Theorem extract_metadata_entries (path : string) (w w1 w2 : world)
    (image : pil_image) (exif_data : list (Z * exif_value)) :
  run (Image_open path) w = (Ok image, w1) ->
  run (getexif image) w1 = (Ok exif_data, w2) ->
  exists result : gmap key exif_value,
    run (extract_metadata path) w = (Ok result, w2)
    /\ dom result = list_to_set (keys_of exif_data)
    /\ (forall (tag_id : Z) (value : exif_value),
          (tag_id, value) ∈ exif_data ->
          match TAGS !! tag_id with
          | Some name => is_Some (result !! inl name)
          | None => is_Some (result !! inr tag_id)
          end)
    /\ (forall (k : key) (value : exif_value),
          result !! k = Some value ->
          exists tag_id : Z, (tag_id, value) ∈ exif_data /\ tag_of tag_id = k)
    /\ (NoDup (keys_of exif_data) ->
        size result = length exif_data
        /\ forall (tag_id : Z) (value : exif_value),
             (tag_id, value) ∈ exif_data ->
             result !! tag_of tag_id = Some value).
Proof.
  intros Hopen Hexif. exists (metadata exif_data).
  split; [apply (extract_metadata_run _ _ _ _ _ _ Hopen Hexif)|].
  assert (Hdom : dom (metadata exif_data) = list_to_set (keys_of exif_data)).
  { unfold metadata.
    rewrite foldl_insert_dom, dom_empty_L, (left_id_L ∅ (∪)). reflexivity. }
  split; [exact Hdom|]. split; [|split].
  - intros tag_id value Hin.
    assert (Hk : tag_of tag_id ∈ dom (metadata exif_data)).
    { rewrite Hdom. apply elem_of_list_to_set. unfold keys_of.
      apply (list_elem_of_fmap_2 (fun e => tag_of e.1) _ _ Hin). }
    apply elem_of_dom in Hk. unfold tag_of in Hk.
    destruct (TAGS !! tag_id); exact Hk.
  - intros k value Hk. unfold metadata in Hk.
    destruct (foldl_insert_origin _ _ _ _ Hk) as [Hempty|Hfound].
    + rewrite lookup_empty in Hempty. discriminate.
    + exact Hfound.
  - intros Hnd. split.
    + rewrite <- size_dom, Hdom, size_list_to_set by exact Hnd.
      unfold keys_of. apply length_map.
    + intros tag_id value Hin. apply foldl_insert_found; assumption.
Qed.

End MetadataProofs.

Lemma extract_metadata_entries_witness :
  exists result : gmap key string,
    run (extract_metadata (pil := reference_pil) "photo.jpg")
        (World (fun _ => None) [] [])
    = (Ok result, World (fun _ => None) [] [])
    /\ result !! inl "Make" = Some "ACME"
    /\ result !! inr 59932%Z = Some "n/a"
    /\ size result = 3%nat.
Proof.
  destruct (extract_metadata_entries (pil := reference_pil) "photo.jpg"
              (World (fun _ => None) [] []) (World (fun _ => None) [] [])
              (World (fun _ => None) [] [])
              [(271, "ACME"); (272, "One"); (59932, "n/a")]%Z
              [(271, "ACME"); (272, "One"); (59932, "n/a")]%Z
              eq_refl eq_refl)
    as (result & Hrun & _ & _ & _ & Hall).
  destruct Hall as [Hsize Hfound].
  { change (NoDup ([inl "Make"; inl "Model"; inr 59932%Z] : list (string + Z))).
    apply (bool_decide_unpack _). vm_compute. exact I. }
  exists result. split; [exact Hrun|]. split; [|split].
  - apply (Hfound 271%Z "ACME"). left.
  - apply (Hfound 59932%Z "n/a"). right. right. left.
  - exact Hsize.
Defined.
